(** * SA-Lotto-Scraper: the JSON clean-up, repair and validation core

    A shallow embedding of the text-processing part of the scraper service
    ([fixTruncatedJson], [cleanJsonString] and the parse / filter / sort tail
    of [generateLotteryData]) together with the platform functions they call
    ([String.prototype.trim], the regular-expression replacements,
    [JSON.parse], [Array.prototype.sort], [new Date(..).getTime()]).

    JavaScript strings are sequences of UTF-16 code units; they are modelled
    as lists of code units, a code unit being a number ([N]). *)

From Stdlib Require Import String Ascii.
From Stdlib Require Import List NArith ZArith Bool Lia Permutation Sorted.
Import ListNotations.

Set Implicit Arguments.
Set Warnings "-register-all".

(** ** JavaScript strings *)

Module JsString.

Definition codeunit : Type := N.
Definition jsstring : Type := list codeunit.

(** The code units the service looks at. *)
Definition QUOTE : codeunit := 34%N.      (* the double quote *)
Definition BACKSLASH : codeunit := 92%N.
Definition LBRACE : codeunit := 123%N.
Definition RBRACE : codeunit := 125%N.
Definition LBRACKET : codeunit := 91%N.
Definition RBRACKET : codeunit := 93%N.
Definition COMMA : codeunit := 44%N.
Definition COLON : codeunit := 58%N.
Definition BACKTICK : codeunit := 96%N.
Definition NEWLINE : codeunit := 10%N.
Definition APOSTROPHE : codeunit := 39%N.

(** A string of ASCII characters as a JavaScript string. *)
Definition js (s : string) : jsstring :=
  map N_of_ascii (list_ascii_of_string s).

(** JSON texts are full of double quotes; [jsq] reads a text in which every
    apostrophe stands for a double quote, so that [jsq "{'a':1}"] is the
    seven code units of the JSON text with a quoted key [a]. *)
Definition jsq (s : string) : jsstring :=
  map (fun c => if N.eqb c APOSTROPHE then QUOTE else c) (js s).

(** [WhiteSpace] and [LineTerminator] of ECMAScript: what [trim] strips and
    what the class [\s] of a regular expression matches. *)
Definition isWhiteSpace (c : codeunit) : bool :=
  ((9 <=? c) && (c <=? 13) || (c =? 32) || (c =? 160) || (c =? 5760)
   || (8192 <=? c) && (c <=? 8202) || (c =? 8232) || (c =? 8233)
   || (c =? 8239) || (c =? 8287) || (c =? 12288) || (c =? 65279))%N.

Fixpoint eqb (a b : jsstring) : bool :=
  match a, b with
  | [], [] => true
  | x :: a', y :: b' => N.eqb x y && eqb a' b'
  | _, _ => false
  end.

(** [s.startsWith(p)] *)
Fixpoint startsWith (p s : jsstring) : bool :=
  match p, s with
  | [], _ => true
  | x :: p', y :: s' => N.eqb x y && startsWith p' s'
  | _ :: _, [] => false
  end.

(** [s.includes(p)] *)
Fixpoint includes (p s : jsstring) : bool :=
  startsWith p s || match s with [] => false | _ :: s' => includes p s' end.

Fixpoint trimStart (s : jsstring) : jsstring :=
  match s with
  | c :: s' => if isWhiteSpace c then trimStart s' else s
  | [] => []
  end.

Definition trimEnd (s : jsstring) : jsstring := rev (trimStart (rev s)).

(** [s.trim()] *)
Definition trim (s : jsstring) : jsstring := trimEnd (trimStart s).

End JsString.
Import JsString.

(** ** The truncation repair engine: [fixTruncatedJson] *)

Module Repair.

(** The three locals of the scan.  [stack] holds the expected closers, the
    innermost first: [stack.push] and [stack.pop] work on the head. *)
Record ScanState : Type := mkScan
  { isInsideString : bool;
    escaped : bool;
    stack : list codeunit }.

Definition initial : ScanState :=
  {| isInsideString := false; escaped := false; stack := [] |}.

(** One iteration of the [for] loop, on the code unit [char]. *)
Definition scanStep (st : ScanState) (char : codeunit) : ScanState :=
  let inside :=
    if N.eqb char QUOTE && negb (escaped st)
    then negb (isInsideString st) else isInsideString st in
  let esc := N.eqb char BACKSLASH && negb (escaped st) in
  let stk :=
    if negb inside then
      if N.eqb char LBRACE || N.eqb char LBRACKET then
        (if N.eqb char LBRACE then RBRACE else RBRACKET) :: stack st
      else if N.eqb char RBRACE || N.eqb char RBRACKET then
        match stack st with
        | top :: rest => if N.eqb top char then rest else stack st
        | [] => stack st
        end
      else stack st
    else stack st in
  {| isInsideString := inside; escaped := esc; stack := stk |}.

(** The whole [for] loop, from any state. *)
Definition scanFrom (st : ScanState) (json : jsstring) : ScanState :=
  fold_left scanStep json st.

Definition scan (json : jsstring) : ScanState := scanFrom initial json.

(** The state after each code unit of [json], for looking at a scan. *)
Fixpoint scanTrace (st : ScanState) (json : jsstring) : list ScanState :=
  match json with
  | [] => []
  | c :: rest => scanStep st c :: scanTrace (scanStep st c) rest
  end.

(** The [while] loop: pop a closer and append it, until the stack is empty. *)
Fixpoint closeAll (stk : list codeunit) (repaired : jsstring) : jsstring :=
  match stk with
  | [] => repaired
  | closer :: rest => closeAll rest (repaired ++ [closer])
  end.

Definition fixTruncatedJson (json : jsstring) : jsstring :=
  let st := scan json in
  let repaired := json in
  let repaired := if isInsideString st then repaired ++ [QUOTE] else repaired in
  closeAll (stack st) repaired.

(** What the repair appends after the optional closing quote. *)
Definition appendedTerminators (json : jsstring) : list codeunit :=
  stack (scan json).

(** *** The specification's reading: unmatched openers

    The specification speaks of the openers of the input that are still
    unmatched at the end of a scan outside string literals.  This scan
    follows those words: it keeps the openers themselves, each with the
    position it stands at, and a closer matches the innermost open opener of
    its own kind. *)

Definition isOpener (c : codeunit) : bool := N.eqb c LBRACE || N.eqb c LBRACKET.
Definition isCloser (c : codeunit) : bool := N.eqb c RBRACE || N.eqb c RBRACKET.

Definition closerOf (opener : codeunit) : codeunit :=
  if N.eqb opener LBRACE then RBRACE else RBRACKET.

Record OpenerScan : Type := mkOpeners
  { insideString : bool;
    escapedPrev : bool;
    position : nat;
    openers : list (nat * codeunit) (* innermost first *) }.

Definition openerStep (st : OpenerScan) (c : codeunit) : OpenerScan :=
  let inside :=
    if N.eqb c QUOTE && negb (escapedPrev st)
    then negb (insideString st) else insideString st in
  let ops :=
    if inside then openers st
    else if isOpener c then (position st, c) :: openers st
    else if isCloser c then
      match openers st with
      | (i, o) :: rest => if N.eqb (closerOf o) c then rest else openers st
      | [] => []
      end
    else openers st in
  {| insideString := inside;
     escapedPrev := N.eqb c BACKSLASH && negb (escapedPrev st);
     position := S (position st);
     openers := ops |}.

Definition openerScan (json : jsstring) : OpenerScan :=
  fold_left openerStep json
    {| insideString := false; escapedPrev := false; position := 0; openers := [] |}.

(** The unmatched openers with their positions, in order of appearance. *)
Definition unmatchedOpeners (json : jsstring) : list (nat * codeunit) :=
  rev (openers (openerScan json)).

End Repair.
Import Repair.

(** ** [JSON.parse] *)

Module Json.

(** A JSON number as written: [(-1)^negative * mantissa * 10^exponent].
    [JSON.parse] rounds it to a binary64 double; the service only ever asks
    whether the double is zero, which the decimal decides ([isZero]). *)
Record Decimal : Type := mkDecimal
  { negative : bool;
    mantissa : N;
    exponent : Z }.

(** The values [JSON.parse] can return.  An object keeps its properties in
    the order they were first written; a key written twice keeps its last
    value. *)
Inductive JSValue : Type :=
| JNull
| JBool (b : bool)
| JNumber (d : Decimal)
| JString (s : jsstring)
| JArray (items : list JSValue)
| JObject (props : list (jsstring * JSValue)).

(** The result of running a recursive-descent parser with a bound on its
    recursion depth.  [SyntaxError] is the exception of [JSON.parse]. *)
Inductive Outcome (A : Type) : Type :=
| Parsed (a : A)
| SyntaxError
| OutOfFuel.
Arguments SyntaxError {A}.
Arguments OutOfFuel {A}.

(** JSON whitespace: tab, line feed, carriage return, space. *)
Definition isJsonSpace (c : codeunit) : bool :=
  ((c =? 9) || (c =? 10) || (c =? 13) || (c =? 32))%N.

Fixpoint skipWs (s : jsstring) : jsstring :=
  match s with
  | c :: r => if isJsonSpace c then skipWs r else s
  | [] => []
  end.

Definition isDigit (c : codeunit) : bool := ((48 <=? c) && (c <=? 57))%N.

Definition hexValue (c : codeunit) : option N :=
  if isDigit c then Some (c - 48)%N
  else if ((97 <=? c) && (c <=? 102))%N then Some (c - 87)%N
  else if ((65 <=? c) && (c <=? 70))%N then Some (c - 55)%N
  else None.

Definition hex4 (a b c d : codeunit) : option codeunit :=
  match hexValue a, hexValue b, hexValue c, hexValue d with
  | Some x, Some y, Some z, Some w => Some (((x * 16 + y) * 16 + z) * 16 + w)%N
  | _, _, _, _ => None
  end.

(** The single-character escapes: quote, backslash, slash, b, f, n, r, t. *)
Definition simpleEscape (c : codeunit) : option codeunit :=
  if (c =? 34)%N then Some 34%N
  else if (c =? 92)%N then Some 92%N
  else if (c =? 47)%N then Some 47%N
  else if (c =? 98)%N then Some 8%N
  else if (c =? 102)%N then Some 12%N
  else if (c =? 110)%N then Some 10%N
  else if (c =? 114)%N then Some 13%N
  else if (c =? 116)%N then Some 9%N
  else None.

(** A string literal after its opening quote: the string and what follows
    the closing quote. *)
Fixpoint parseStringBody (s : jsstring) : option (jsstring * jsstring) :=
  match s with
  | [] => None
  | c :: r =>
    if N.eqb c QUOTE then Some ([], r)
    else if N.eqb c BACKSLASH then
      match r with
      | [] => None
      | e :: r1 =>
        if N.eqb e 117 (* u *) then
          match r1 with
          | h1 :: h2 :: h3 :: h4 :: r2 =>
            match hex4 h1 h2 h3 h4, parseStringBody r2 with
            | Some u, Some (str, rest) => Some (u :: str, rest)
            | _, _ => None
            end
          | _ => None
          end
        else
          match simpleEscape e, parseStringBody r1 with
          | Some u, Some (str, rest) => Some (u :: str, rest)
          | _, _ => None
          end
      end
    else if (c <? 32)%N then None
    else
      match parseStringBody r with
      | Some (str, rest) => Some (c :: str, rest)
      | None => None
      end
  end.

(** The longest prefix of digits, and the rest. *)
Fixpoint spanDigits (s : jsstring) : jsstring * jsstring :=
  match s with
  | c :: r =>
    if isDigit c then let (ds, rest) := spanDigits r in (c :: ds, rest)
    else ([], s)
  | [] => ([], [])
  end.

Definition digitsValue (ds : jsstring) : N :=
  fold_left (fun acc c => (acc * 10 + (c - 48))%N) ds 0%N.

(** A number: an optional minus; a zero, or a non-zero digit and more
    digits; an optional fraction (a dot and at least one digit); an optional
    exponent (e or E, an optional sign, at least one digit). *)
Definition takeSign (s : jsstring) : bool * jsstring :=
  match s with
  | c :: r => if N.eqb c 45 (* - *) then (true, r) else (false, s)
  | [] => (false, s)
  end.

Definition takeInt (s : jsstring) : option (jsstring * jsstring) :=
  match s with
  | c :: r =>
    if N.eqb c 48 (* 0 *) then Some ([c], r)
    else if isDigit c then let (ds, rest) := spanDigits r in Some (c :: ds, rest)
    else None
  | [] => None
  end.

Definition takeFraction (s : jsstring) : option (jsstring * jsstring) :=
  match s with
  | c :: r =>
    if N.eqb c 46 (* . *) then
      match spanDigits r with
      | ([], _) => None
      | (fs, rest) => Some (fs, rest)
      end
    else Some ([], s)
  | [] => Some ([], s)
  end.

Definition takeExponent (s : jsstring) : option (Z * jsstring) :=
  match s with
  | c :: r =>
    if N.eqb c 101 || N.eqb c 69 (* e E *) then
      let (minus, r1) :=
        match r with
        | sg :: r' =>
          if N.eqb sg 45 (* - *) then (true, r')
          else if N.eqb sg 43 (* + *) then (false, r')
          else (false, r)
        | [] => (false, r)
        end in
      match spanDigits r1 with
      | ([], _) => None
      | (es, rest) =>
        let e := Z.of_N (digitsValue es) in
        Some (if minus then (- e)%Z else e, rest)
      end
    else Some (0%Z, s)
  | [] => Some (0%Z, s)
  end.

Definition parseNumber (s : jsstring) : option (Decimal * jsstring) :=
  let (neg, s1) := takeSign s in
  match takeInt s1 with
  | None => None
  | Some (ip, s2) =>
    match takeFraction s2 with
    | None => None
    | Some (fp, s3) =>
      match takeExponent s3 with
      | None => None
      | Some (e, rest) =>
        Some ({| negative := neg;
                 mantissa := digitsValue (ip ++ fp);
                 exponent := (e - Z.of_nat (length fp))%Z |}, rest)
      end
    end
  end.

(** [setProp key v props]: [CreateDataProperty] on an ordinary object. *)
Fixpoint setProp (key : jsstring) (v : JSValue) (props : list (jsstring * JSValue))
  : list (jsstring * JSValue) :=
  match props with
  | [] => [(key, v)]
  | (k, old) :: rest =>
    if JsString.eqb k key then (k, v) :: rest else (k, old) :: setProp key v rest
  end.

Definition literal (word : string) (v : JSValue) (s : jsstring)
  : Outcome (JSValue * jsstring) :=
  if startsWith (js word) s then Parsed (v, skipn (String.length word) s)
  else SyntaxError.

(** A value, the elements of an array after its opening bracket, and the
    members of an object after its opening brace.  Each takes the text it
    starts at and returns the value together with the text left over. *)
Fixpoint parseValue (fuel : nat) (s : jsstring) : Outcome (JSValue * jsstring) :=
  match fuel with
  | 0 => OutOfFuel
  | S fuel' =>
    match skipWs s with
    | [] => SyntaxError
    | c :: r =>
      if N.eqb c LBRACE then
        match skipWs r with
        | c' :: r' =>
          if N.eqb c' RBRACE then Parsed (JObject [], r')
          else parseMembers fuel' r []
        | [] => SyntaxError
        end
      else if N.eqb c LBRACKET then
        match skipWs r with
        | c' :: r' =>
          if N.eqb c' RBRACKET then Parsed (JArray [], r')
          else parseElements fuel' r []
        | [] => SyntaxError
        end
      else if N.eqb c QUOTE then
        match parseStringBody r with
        | Some (str, rest) => Parsed (JString str, rest)
        | None => SyntaxError
        end
      else if N.eqb c 45 || isDigit c then
        match parseNumber (c :: r) with
        | Some (d, rest) => Parsed (JNumber d, rest)
        | None => SyntaxError
        end
      else if N.eqb c 116 then literal "true" (JBool true) (c :: r)
      else if N.eqb c 102 then literal "false" (JBool false) (c :: r)
      else if N.eqb c 110 then literal "null" JNull (c :: r)
      else SyntaxError
    end
  end
with parseElements (fuel : nat) (s : jsstring) (acc : list JSValue)
  : Outcome (JSValue * jsstring) :=
  match fuel with
  | 0 => OutOfFuel
  | S fuel' =>
    match parseValue fuel' s with
    | Parsed (v, rest) =>
      match skipWs rest with
      | c :: r =>
        if N.eqb c COMMA then parseElements fuel' r (acc ++ [v])
        else if N.eqb c RBRACKET then Parsed (JArray (acc ++ [v]), r)
        else SyntaxError
      | [] => SyntaxError
      end
    | SyntaxError => SyntaxError
    | OutOfFuel => OutOfFuel
    end
  end
with parseMembers (fuel : nat) (s : jsstring) (acc : list (jsstring * JSValue))
  : Outcome (JSValue * jsstring) :=
  match fuel with
  | 0 => OutOfFuel
  | S fuel' =>
    match skipWs s with
    | c :: r =>
      if N.eqb c QUOTE then
        match parseStringBody r with
        | Some (key, rest) =>
          match skipWs rest with
          | c2 :: r2 =>
            if N.eqb c2 COLON then
              match parseValue fuel' r2 with
              | Parsed (v, rest') =>
                match skipWs rest' with
                | c3 :: r3 =>
                  if N.eqb c3 COMMA then parseMembers fuel' r3 (setProp key v acc)
                  else if N.eqb c3 RBRACE then Parsed (JObject (setProp key v acc), r3)
                  else SyntaxError
                | [] => SyntaxError
                end
              | SyntaxError => SyntaxError
              | OutOfFuel => OutOfFuel
              end
            else SyntaxError
          | [] => SyntaxError
          end
        | None => SyntaxError
        end
      else SyntaxError
    | [] => SyntaxError
    end
  end.

(** [JSON.parse(text)]: one value, with nothing but whitespace after it.
    The fuel is enough for every text ([JSON_parse_total] below). *)
Definition JSON_parse (text : jsstring) : Outcome JSValue :=
  match parseValue (2 * length text + 2) text with
  | Parsed (v, rest) =>
    match skipWs rest with
    | [] => Parsed v
    | _ :: _ => SyntaxError
    end
  | SyntaxError => SyntaxError
  | OutOfFuel => OutOfFuel
  end.

End Json.
Import Json.

(** ** The text normalizer: [cleanJsonString] *)

Module Normalizer.

Definition FENCE : jsstring := [BACKTICK; BACKTICK; BACKTICK].

(** [s.replace(/^```(?:json)?\n?/, '')]: the fence at the very start, the
    tag [json] when it follows, one line feed when it follows. *)
Definition stripOpeningFence (s : jsstring) : jsstring :=
  if startsWith FENCE s then
    let s1 := skipn 3 s in
    let s2 := if startsWith (js "json") s1 then skipn 4 s1 else s1 in
    if startsWith [NEWLINE] s2 then skipn 1 s2 else s2
  else s.

(** The pattern [\n?```$] matched at the start of [s]: the match has to reach
    the end of the input. *)
Definition closingFenceHere (s : jsstring) : bool :=
  JsString.eqb s (NEWLINE :: FENCE) || JsString.eqb s FENCE.

(** [s.replace(/\n?```$/, '')]: the first position, from the left, where the
    pattern matches; the match is removed and nothing follows it. *)
Fixpoint stripClosingFence (s : jsstring) : jsstring :=
  if closingFenceHere s then []
  else match s with
       | [] => []
       | c :: r => c :: stripClosingFence r
       end.

(** After a comma: the match of [\s*([\]}])], as the captured bracket and the
    text after the match. *)
Fixpoint closerAfterSpaces (s : jsstring) : option (codeunit * jsstring) :=
  match s with
  | c :: r =>
    if isWhiteSpace c then closerAfterSpaces r
    else if isCloser c then Some (c, r)
    else None
  | [] => None
  end.

(** [s.replace(/,\s*([\]}])/g, '$1')]: from the left, every match is replaced
    by its bracket and the search goes on after the match.  The recursion is
    on a bound of the length of the text left. *)
Fixpoint replaceTrailingCommas (fuel : nat) (s : jsstring) : jsstring :=
  match fuel with
  | 0 => s
  | S fuel' =>
    match s with
    | [] => []
    | c :: r =>
      if N.eqb c COMMA then
        match closerAfterSpaces r with
        | Some (bracket, rest) => bracket :: replaceTrailingCommas fuel' rest
        | None => c :: replaceTrailingCommas fuel' r
        end
      else c :: replaceTrailingCommas fuel' r
    end
  end.

Definition removeTrailingCommas (s : jsstring) : jsstring :=
  replaceTrailingCommas (length s) s.

(** The first two statements of [cleanJsonString]: trim, then the fences. *)
Definition stripFences (str : jsstring) : jsstring :=
  let cleaned := trim str in
  if startsWith FENCE cleaned
  then stripClosingFence (stripOpeningFence cleaned)
  else cleaned.

(** Everything before the trial parse. *)
Definition normalize (str : jsstring) : jsstring :=
  removeTrailingCommas (stripFences str).

Definition cleanJsonString (str : jsstring) : jsstring :=
  let cleaned := normalize str in
  match JSON_parse cleaned with
  | Parsed _ => cleaned
  | _ => fixTruncatedJson cleaned
  end.

End Normalizer.
Import Normalizer.

(** ** Dates: [new Date(value).getTime()] *)

Module Dates.

(** A completion of an evaluation that may throw. *)
Inductive Completion (A : Type) : Type :=
| Normal (a : A)
| Throw.
Arguments Throw {A}.

(** A time value: milliseconds since the epoch, or NaN. *)
Inductive TimeValue : Type :=
| NaN
| Finite (ms : Z).

Definition digit (c : codeunit) : option Z :=
  if isDigit c then Some (Z.of_N c - 48)%Z else None.

Definition InLeapYear (y : Z) : bool :=
  ((y mod 4 =? 0) && negb (y mod 100 =? 0) || (y mod 400 =? 0))%Z.

Definition DaysInMonth (y m : Z) : Z :=
  if (m =? 2)%Z then (if InLeapYear y then 29 else 28)%Z
  else if ((m =? 4) || (m =? 6) || (m =? 9) || (m =? 11))%Z then 30%Z
  else 31%Z.

(** [DayFromYear] of ECMAScript: the day number of January 1st of [y]. *)
Definition DayFromYear (y : Z) : Z :=
  (365 * (y - 1970) + (y - 1969) / 4 - (y - 1901) / 100 + (y - 1601) / 400)%Z.

(** Days of the year before month [m] (1 to 12). *)
Definition DaysBeforeMonth (y m : Z) : Z :=
  (nth (Z.to_nat (m - 1)) [0; 31; 59; 90; 120; 151; 181; 212; 243; 273; 304; 334] 0
   + (if InLeapYear y && (2 <? m) then 1 else 0))%Z.

Definition msPerDay : Z := 86400000%Z.

(** The date-only form [YYYY-MM-DD] of the ECMAScript date-time string
    format, which is read as midnight UTC. *)
Inductive IsoDate : Type :=
| IsoTime (ms : Z)  (* a calendar date *)
| NotIso.           (* anything else: left to the engine *)

Definition parseIsoDate (s : jsstring) : IsoDate :=
  match s with
  | [y1; y2; y3; y4; d1; m1; m2; d2; n1; n2] =>
    match digit y1, digit y2, digit y3, digit y4, digit m1, digit m2, digit n1, digit n2 with
    | Some a, Some b, Some c, Some d, Some e, Some f, Some g, Some h =>
      if N.eqb d1 45 && N.eqb d2 45 then
        let y := (((a * 10 + b) * 10 + c) * 10 + d)%Z in
        let m := (e * 10 + f)%Z in
        let dd := (g * 10 + h)%Z in
        if ((1 <=? m) && (m <=? 12) && (1 <=? dd) && (dd <=? DaysInMonth y m))%Z
        then IsoTime ((DayFromYear y + DaysBeforeMonth y m + dd - 1) * msPerDay)%Z
        else NotIso
      else NotIso
    | _, _, _, _, _, _, _, _ => NotIso
    end
  | _ => NotIso
  end.

(** What ECMAScript leaves to the engine, and what this model does not spell
    out: the time value of a string that is not a calendar date in the
    standard form (legacy formats; a month outside 01 to 12 or a day the
    month does not have, which an engine may still read with a parser of
    its own), and of a value that is not a string (a number is clipped, an
    object or array goes through [ToPrimitive], which throws a [TypeError]
    when no conversion method is callable). *)
Definition HostDate : Type := JSValue -> Completion TimeValue.

(** [new Date(x).getTime()], [x] being [undefined] ([None]) or a value. *)
Definition getTime (host : HostDate) (x : option JSValue) : Completion TimeValue :=
  match x with
  | None => Normal NaN
  | Some (JString s) =>
    match parseIsoDate s with
    | IsoTime ms => Normal (Finite ms)
    | NotIso => host (JString s)
    end
  | Some v => host v
  end.

(** A host for closed examples, which reads nothing but calendar dates in
    the standard form: every other value gives NaN. *)
Definition strictHost : HostDate := fun _ => Normal NaN.

End Dates.
Import Dates.

(** ** The record validator and sorter *)

Module Validator.

(** The double a JSON number rounds to is zero when the mantissa is zero or
    the decimal is at most [2^-1075], half the smallest subnormal (ties go
    to the even neighbour, which is zero). *)
Definition isZero (d : Decimal) : bool :=
  (mantissa d =? 0)%N
  || ((exponent d <? 0)%Z
      && (Z.of_N (mantissa d) * 2 ^ 1075 <=? 10 ^ (- exponent d))%Z).

(** [ToBoolean] on a parsed value. *)
Definition truthy (v : JSValue) : bool :=
  match v with
  | JNull => false
  | JBool b => b
  | JNumber d => negb (isZero d)
  | JString s => match s with [] => false | _ :: _ => true end
  | JArray _ => true
  | JObject _ => true
  end.

(** [ToBoolean] on a value that may be [undefined]. *)
Definition truthyOpt (x : option JSValue) : bool :=
  match x with
  | Some v => truthy v
  | None => false
  end.

Fixpoint lookup (key : jsstring) (props : list (jsstring * JSValue)) : option JSValue :=
  match props with
  | [] => None
  | (k, v) :: rest => if JsString.eqb k key then Some v else lookup key rest
  end.

(** [v.key] for one of the keys [draws], [game], [date], [numbers], which no
    prototype defines: the own property of an object, [undefined] on any
    other value, except that reading a property of [null] throws. *)
Definition getProp (v : JSValue) (key : jsstring) : Completion (option JSValue) :=
  match v with
  | JNull => Throw
  | JObject props => Normal (lookup key props)
  | _ => Normal None
  end.

(** [d.key] where [d] is known not to be [null] or [undefined]. *)
Definition field (d : JSValue) (key : jsstring) : option JSValue :=
  match d with
  | JObject props => lookup key props
  | _ => None
  end.

(** [Array.isArray(x)] *)
Definition isArray (x : option JSValue) : bool :=
  match x with
  | Some (JArray _) => true
  | _ => false
  end.

(** The callback of [filter]:
    [d => d && d.game && d.date && Array.isArray(d.numbers)]. *)
Definition isValidDraw (d : JSValue) : bool :=
  truthy d
  && truthyOpt (field d (js "game"))
  && truthyOpt (field d (js "date"))
  && isArray (field d (js "numbers")).

(** [new Date(d.date).getTime()] *)
Definition dateTime (host : HostDate) (d : JSValue) : Completion TimeValue :=
  match getProp d (js "date") with
  | Throw => Throw
  | Normal x => getTime host x
  end.

(** The comparator of [sort]:
    [(a, b) => new Date(b.date).getTime() - new Date(a.date).getTime()].
    The difference of two time values is NaN when one of them is; otherwise
    it has the sign of the exact difference (a binary64 subtraction of two
    different numbers is never zero). *)
Definition byDateDescending (host : HostDate) (a b : JSValue) : Completion TimeValue :=
  match dateTime host b with
  | Throw => Throw
  | Normal tb =>
    match dateTime host a with
    | Throw => Throw
    | Normal ta =>
      match tb, ta with
      | Finite x, Finite y => Normal (Finite (x - y))
      | _, _ => Normal NaN
      end
    end
  end.

(** *** [Array.prototype.sort]

    ECMAScript leaves the sequence of comparator calls to the engine and asks
    for a stable result.  The model is the stable insertion sort; a call of
    the comparator that throws ends the sort with that exception.  For a
    comparator that is consistent on the elements of the array (an order
    with ties, which it is when every date parses, and when every pair
    compares as [+0]) every conforming engine returns the same array, and
    the model is that array.  For any other comparator (a NaN among
    different dates) the order of the result is the engine's own, and the
    model stands only for what every engine shares: the result is a
    permutation of the array, and the sort throws when a date read throws. *)
Section Sort.

Variable A : Type.

(** The comparator returns a number, NaN or finite, or throws. *)
Variable comparefn : A -> A -> Completion TimeValue.

(** [SortCompare]: a NaN from the comparator counts as [+0]. *)
Definition SortCompare (x y : A) : Completion Z :=
  match comparefn x y with
  | Throw => Throw
  | Normal NaN => Normal 0%Z
  | Normal (Finite v) => Normal v
  end.

Fixpoint insertSorted (x : A) (sorted : list A) : Completion (list A) :=
  match sorted with
  | [] => Normal [x]
  | y :: rest =>
    match SortCompare x y with
    | Throw => Throw
    | Normal v =>
      if (v <=? 0)%Z then Normal (x :: y :: rest)
      else match insertSorted x rest with
           | Throw => Throw
           | Normal l => Normal (y :: l)
           end
    end
  end.

Fixpoint sort (l : list A) : Completion (list A) :=
  match l with
  | [] => Normal []
  | x :: rest =>
    match sort rest with
    | Throw => Throw
    | Normal sorted => insertSorted x sorted
    end
  end.

End Sort.

(** [data.draws.filter(..)] followed by [validDraws.sort(..)]. *)
Definition validDraws (items : list JSValue) : list JSValue :=
  filter isValidDraw items.

Definition sortDraws (host : HostDate) (draws : list JSValue) : Completion (list JSValue) :=
  sort (byDateDescending host) draws.

(** *** Vocabulary for the order of the result *)

(** A record whose date is a calendar date for [new Date]. *)
Definition parsable (host : HostDate) (d : JSValue) : Prop :=
  exists t, dateTime host d = Normal (Finite t).


(** The time value of a parsable record. *)
Definition timeOf (host : HostDate) (d : JSValue) : Z :=
  match dateTime host d with
  | Normal (Finite t) => t
  | _ => 0%Z
  end.

Definition sameTime (host : HostDate) (t : Z) (d : JSValue) : bool :=
  (timeOf host d =? t)%Z.

(** Descending by date: [a] may stand before [b]. *)
Definition newerFirst (host : HostDate) (a b : JSValue) : Prop :=
  (timeOf host b <= timeOf host a)%Z.

(** A kept record with the given id and date. *)
Definition draw (id date : string) : JSValue :=
  JObject [(js "id", JString (js id));
           (js "game", JString (js "Lotto"));
           (js "date", JString (js date));
           (js "numbers", JArray [])].

(** The text of the specification's validator scenario, and its records. *)
Definition scenarioText : jsstring :=
  jsq "{'draws':[{'game':'Lotto','date':'2026-02-01','numbers':[1,2,3]},{'game':'','date':'2026-02-02','numbers':[]},{'numbers':[4]}]}".

Definition num (n : N) : JSValue := JNumber (mkDecimal false n 0).

(** The entries of the payload [orderText] below. *)
Definition orderItems : list JSValue :=
  [draw "a" "2026-01-20";
   draw "b" "2026-02-15";
   JObject [(js "game", JString []);
            (js "date", JString (js "2026-02-02"));
            (js "numbers", JArray [])];
   draw "c" "2026-01-20"].

(** A payload of four entries: three records to keep, two of them of one
    date and the newest between them, and an entry without a game. *)
Definition orderText : jsstring :=
  jsq "{'draws':[{'id':'a','game':'Lotto','date':'2026-01-20','numbers':[]},{'id':'b','game':'Lotto','date':'2026-02-15','numbers':[]},{'game':'','date':'2026-02-02','numbers':[]},{'id':'c','game':'Lotto','date':'2026-01-20','numbers':[]}]}".

Definition record1 : JSValue :=
  JObject [(js "game", JString (js "Lotto"));
           (js "date", JString (js "2026-02-01"));
           (js "numbers", JArray [num 1; num 2; num 3])].

Definition record2 : JSValue :=
  JObject [(js "game", JString []);
           (js "date", JString (js "2026-02-02"));
           (js "numbers", JArray [])].

Definition record3 : JSValue :=
  JObject [(js "numbers", JArray [num 4])].

End Validator.
Import Validator.

(** ** The pipeline: [generateLotteryData] *)

Module Pipeline.

Record Source : Type := mkSource
  { uri : option jsstring;
    title : option jsstring }.

(** A grounding chunk, with its [web] member when it has one. *)
Record Chunk : Type := mkChunk
  { web : option Source }.

(** What [generateContent] resolved to: [response.text] and the grounding
    chunks of the first candidate, each [undefined] ([None]) or present. *)
Record Response : Type := mkResponse
  { text : option jsstring;
    groundingChunks : option (list Chunk) }.

(** The upstream call, on the outcomes for which [generateLotteryData]
    returns a result: it throws an error whose [message] is a string or is
    missing, or resolves to a response.  The other values a call can throw
    are those of [Thrown] below, with [generateLotteryDataPromise]. *)
Inductive Upstream : Type :=
| Rejected (message : option jsstring)
| Fulfilled (response : Response).

Record ScrapedResult : Type := mkResult
  { draws : list JSValue;
    sources : list Source;
    errorDetail : option jsstring }.

(** [groundingChunks.forEach(chunk => { if (chunk.web) sources.push(..) })] *)
Fixpoint collectSources (chunks : list Chunk) : list Source :=
  match chunks with
  | [] => []
  | chunk :: rest =>
    match web chunk with
    | Some w => {| uri := uri w; title := title w |} :: collectSources rest
    | None => collectSources rest
    end
  end.

(** The [sources] of a response: those of its chunks, none without chunks. *)
Definition sourcesOf (chunks : option (list Chunk)) : list Source :=
  match chunks with
  | Some cs => collectSources cs
  | None => []
  end.

Definition parseFailure (srcs : list Source) : ScrapedResult :=
  {| draws := []; sources := srcs;
     errorDetail := Some (js "Data stream was interrupted. Try a smaller date range.") |}.

(** The inner [try] block: parse, validate, sort; any exception thrown in it
    is caught by its [catch]. *)
Definition parseAndValidate (host : HostDate) (cleanedText : jsstring) (srcs : list Source)
  : ScrapedResult :=
  match JSON_parse cleanedText with
  | Parsed data =>
    match getProp data (js "draws") with
    | Throw => parseFailure srcs
    | Normal dr =>
      match dr with
      | Some (JArray items) =>
        match sortDraws host (validDraws items) with
        | Normal sorted => {| draws := sorted; sources := srcs; errorDetail := None |}
        | Throw => parseFailure srcs
        end
      | _ => {| draws := []; sources := srcs; errorDetail := None |}
      end
    end
  | _ => parseFailure srcs
  end.

(** [process.env.API_KEY] is [apiKey]; the call of [generateContent] has
    completed as [upstream]. *)
Definition generateLotteryData (host : HostDate) (apiKey : option jsstring)
  (upstream : Upstream) : ScrapedResult :=
  match apiKey with
  | None | Some [] =>
    {| draws := []; sources := []; errorDetail := Some (js "API Key is missing.") |}
  | Some (_ :: _) =>
    match upstream with
    | Rejected message =>
      {| draws := []; sources := [];
         errorDetail :=
           Some (match message with
                 | Some m => if includes (js "429") m
                             then js "Too many requests. Slow down."
                             else js "Connection failed."
                 | None => js "Connection failed."
                 end) |}
    | Fulfilled response =>
      let srcs := sourcesOf (groundingChunks response) in
      let rawText :=
        match text response with
        | Some (c :: t) => c :: t
        | _ => jsq "{'draws': []}"
        end in
      let cleanedText := cleanJsonString rawText in
      parseAndValidate host cleanedText srcs
    end
  end.

(** *** The promise of [generateLotteryData]

    The handler of the outer [try] is handed whatever the call threw
    ([catch (error: any)]), and evaluates [error.message?.includes("429")]
    on it, which can throw in turn; the promise of the [async] function is
    then rejected and nothing is returned. *)

(** [error.message] of a thrown value that is not [null] or [undefined]. *)
Inductive ErrorMessage : Type :=
| MessageAbsent                             (* [undefined]: the value has no such property *)
| MessageValue (v : JSValue)                (* [null], a string, an array, a number, a boolean,
                                               an object of data *)
| MessageObject (result : Completion bool). (* an object with an [includes] method of its
                                               own: the call throws, or returns a value
                                               that is truthy or not *)

(** What the call threw. *)
Inductive Thrown : Type :=
| ThrownNullish                         (* [null] or [undefined]: reading [message] throws *)
| ThrownValue (message : ErrorMessage).

(** The call of [generateContent], once settled. *)
Inductive CallOutcome : Type :=
| Threw (error : Thrown)
| Resolved (response : Response).

(** [message?.includes("429")], as the condition of [? :]: the chain stops
    at [undefined] and [null]; a string tests for a substring, an array for
    an element that is this very string; a number, a boolean and an object
    of data have no method [includes], and calling [undefined] throws a
    [TypeError]. *)
Definition includes429 (message : ErrorMessage) : Completion bool :=
  match message with
  | MessageAbsent => Normal false
  | MessageValue JNull => Normal false
  | MessageValue (JString s) => Normal (includes (js "429") s)
  | MessageValue (JArray items) =>
    Normal (existsb (fun e => match e with
                              | JString s => JsString.eqb s (js "429")
                              | _ => false
                              end) items)
  | MessageValue _ => Throw
  | MessageObject result => result
  end.

(** The handler of the outer [try]: reading [error.message] of [null] or
    [undefined] throws a [TypeError]. *)
Definition connectionFailure (error : Thrown) : Completion ScrapedResult :=
  match error with
  | ThrownNullish => Throw
  | ThrownValue message =>
    match includes429 message with
    | Throw => Throw
    | Normal rateLimited =>
      Normal {| draws := []; sources := [];
                errorDetail :=
                  Some (if rateLimited
                        then js "Too many requests. Slow down."
                        else js "Connection failed.") |}
    end
  end.

(** [generateLotteryData] for every outcome of the call: [Normal] is the
    promise fulfilled with a result, [Throw] the promise rejected. *)
Definition generateLotteryDataPromise (host : HostDate) (apiKey : option jsstring)
  (outcome : CallOutcome) : Completion ScrapedResult :=
  match apiKey with
  | None | Some [] =>
    Normal {| draws := []; sources := []; errorDetail := Some (js "API Key is missing.") |}
  | Some (_ :: _) =>
    match outcome with
    | Threw error => connectionFailure error
    | Resolved response =>
      let srcs := sourcesOf (groundingChunks response) in
      let rawText :=
        match text response with
        | Some (c :: t) => c :: t
        | _ => jsq "{'draws': []}"
        end in
      let cleanedText := cleanJsonString rawText in
      Normal (parseAndValidate host cleanedText srcs)
    end
  end.

(** The promise fulfilled with the result of a failed call. *)
Definition failedWith (detail : string) : Completion ScrapedResult :=
  Normal {| draws := []; sources := []; errorDetail := Some (js detail) |}.

(** An outcome of [Upstream] among all outcomes. *)
Definition outcomeOf (upstream : Upstream) : CallOutcome :=
  match upstream with
  | Rejected (Some m) => Threw (ThrownValue (MessageValue (JString m)))
  | Rejected None => Threw (ThrownValue MessageAbsent)
  | Fulfilled response => Resolved response
  end.

End Pipeline.
Import Pipeline.

(** ** The page: [App] *)

Module App.


(** [Object.values(LottoGame)] *)
Definition LottoGame : list jsstring :=
  [js "Daily Lotto"; js "Daily Lotto Plus"; js "Lotto"; js "Lotto Plus 1";
   js "Lotto Plus 2"; js "PowerBall"; js "PowerBall Plus"].

Definition gameOptions : list jsstring := js "All" :: LottoGame.












End App.

(** ** The table: [DrawTable] *)

Module DrawTable.

(** [x.includes(search)] for a search string: the method of strings
    (a substring test) and of arrays (an element that is this very string);
    no other value has the method, and calling it throws a [TypeError]. *)
Definition includesMethod (x : option JSValue) (search : jsstring) : Completion bool :=
  match x with
  | Some (JString s) => Normal (includes search s)
  | Some (JArray items) =>
    Normal (existsb (fun e => match e with
                              | JString s => JsString.eqb s search
                              | _ => false
                              end) items)
  | _ => Throw
  end.

Definition red : jsstring := js "bg-red-100 text-red-700".
Definition emerald : jsstring := js "bg-emerald-100 text-emerald-700".
Definition amber : jsstring := js "bg-amber-100 text-amber-700".

(** The colours of the game badge of a row:
    [draw.game.includes('PowerBall') ? red : draw.game.includes('Daily') ? emerald : amber]. *)
Definition badgeClass (draw : JSValue) : Completion jsstring :=
  match includesMethod (field draw (js "game")) (js "PowerBall") with
  | Throw => Throw
  | Normal true => Normal red
  | Normal false =>
    match includesMethod (field draw (js "game")) (js "Daily") with
    | Throw => Throw
    | Normal true => Normal emerald
    | Normal false => Normal amber
    end
  end.

End DrawTable.

(** * Properties *)

(** ** The repair scan *)

Section RepairFacts.

Lemma scanFrom_app (st : ScanState) (a b : jsstring) :
  scanFrom st (a ++ b) = scanFrom (scanFrom st a) b.
Proof. unfold scanFrom. apply fold_left_app. Qed.

Lemma closeAll_app (stk : list codeunit) (repaired : jsstring) :
  closeAll stk repaired = repaired ++ stk.
Proof.
  revert repaired. induction stk as [|c stk IH]; intros repaired; simpl.
  - now rewrite app_nil_r.
  - rewrite IH, <- app_assoc. reflexivity.
Qed.

Lemma fixTruncatedJson_eq (json : jsstring) :
  fixTruncatedJson json
  = json ++ (if isInsideString (scan json) then [QUOTE] else [])
         ++ appendedTerminators json.
Proof.
  unfold fixTruncatedJson, appendedTerminators. rewrite closeAll_app.
  destruct (isInsideString (scan json)).
  - now rewrite <- app_assoc.
  - reflexivity.
Qed.

(** The code's scan and the scan that keeps the openers run in lock step. *)
Definition closersOf (ops : list (nat * codeunit)) : list codeunit :=
  map (fun p => closerOf (snd p)) ops.

Definition agree (st : ScanState) (sp : OpenerScan) : Prop :=
  isInsideString st = insideString sp
  /\ escaped st = escapedPrev sp
  /\ stack st = closersOf (openers sp).

Lemma agree_step (st : ScanState) (sp : OpenerScan) (c : codeunit) :
  agree st sp -> agree (scanStep st c) (openerStep sp c).
Proof.
  intros (Hi & He & Hs). unfold agree, scanStep, openerStep; simpl.
  rewrite <- Hi, <- He. repeat split.
  destruct (if N.eqb c QUOTE && negb (escaped st)
            then negb (isInsideString st) else isInsideString st); simpl; auto.
  unfold isOpener, isCloser.
  destruct (N.eqb c LBRACE || N.eqb c LBRACKET).
  - unfold closersOf; simpl. now rewrite Hs.
  - destruct (N.eqb c RBRACE || N.eqb c RBRACKET); auto.
    rewrite Hs. destruct (openers sp) as [|[i o] rest]; simpl; auto.
    destruct (N.eqb (closerOf o) c); auto.
Qed.

Lemma agree_fold (json : jsstring) :
  forall st sp, agree st sp ->
  agree (fold_left scanStep json st) (fold_left openerStep json sp).
Proof.
  induction json as [|c json IH]; intros st sp H; simpl; auto using agree_step.
Qed.

Lemma scan_agrees (json : jsstring) : agree (scan json) (openerScan json).
Proof. apply agree_fold. repeat split. Qed.

(** What the opener scan knows about the text read so far. *)
Definition recorded (json : jsstring) (sp : OpenerScan) : Prop :=
  position sp = length json
  /\ Forall (fun p => nth_error json (fst p) = Some (snd p)
                      /\ isOpener (snd p) = true) (openers sp)
  /\ StronglySorted (fun p q => fst q < fst p) (openers sp)
  /\ Forall (fun p => fst p < length json) (openers sp).

Lemma Forall_tail {A} (P : A -> Prop) (x : A) (l : list A) :
  Forall P (x :: l) -> Forall P l.
Proof. intros H; now inversion H. Qed.

Lemma recorded_step (json : jsstring) (sp : OpenerScan) (c : codeunit) :
  recorded json sp -> recorded (json ++ [c]) (openerStep sp c).
Proof.
  intros (Hp & Hn & Hs & Hb).
  assert (Hn' : Forall (fun p => nth_error (json ++ [c]) (fst p) = Some (snd p)
                                  /\ isOpener (snd p) = true) (openers sp)).
  { rewrite Forall_forall in *. intros p Hin. destruct (Hn p Hin) as [H1 H2].
    split; auto. rewrite nth_error_app1; auto. }
  assert (Hb' : Forall (fun p => fst p < length (json ++ [c])) (openers sp)).
  { rewrite Forall_forall in *. intros p Hin. specialize (Hb p Hin).
    rewrite length_app; simpl; lia. }
  unfold recorded, openerStep; simpl.
  split; [rewrite length_app; simpl; lia|].
  destruct (if N.eqb c QUOTE && negb (escapedPrev sp)
            then negb (insideString sp) else insideString sp); auto.
  destruct (isOpener c) eqn:Ho.
  - repeat split.
    + constructor; auto. simpl. split; auto.
      rewrite nth_error_app2, Hp, Nat.sub_diag by lia. reflexivity.
    + constructor; auto. rewrite Forall_forall in *. intros q Hq.
      simpl. rewrite Hp. now apply Hb.
    + constructor; auto. simpl. rewrite length_app, Hp; simpl; lia.
  - destruct (isCloser c); auto.
    destruct (openers sp) as [|[i o] rest]; auto.
    destruct (N.eqb (closerOf o) c); auto.
    repeat split; eauto using Forall_tail. now inversion Hs.
Qed.

Lemma recorded_scan (json : jsstring) : recorded json (openerScan json).
Proof.
  unfold openerScan. induction json as [|c json IH] using rev_ind.
  - repeat split; simpl; constructor.
  - rewrite fold_left_app. simpl. now apply recorded_step.
Qed.

Lemma StronglySorted_snoc {A} (R : A -> A -> Prop) (l : list A) (x : A) :
  StronglySorted R l -> Forall (fun y => R y x) l -> StronglySorted R (l ++ [x]).
Proof.
  induction 1 as [|y l Hs IH Hy]; intros Hx; simpl.
  - repeat constructor.
  - inversion Hx; subst. constructor; auto.
    apply Forall_app. split; auto.
Qed.

Lemma StronglySorted_rev {A} (R : A -> A -> Prop) (l : list A) :
  StronglySorted (fun x y => R y x) l -> StronglySorted R (rev l).
Proof.
  induction 1 as [|x l Hs IH Hx]; simpl; [constructor|].
  apply StronglySorted_snoc; auto.
  rewrite Forall_forall in *. intros y Hy. apply Hx. now apply in_rev.
Qed.

End RepairFacts.

(** C1.  The repaired text is the input, one quote when the scan ended
    inside a string, and then the closing terminators.  There are as many
    terminators as openers left unmatched by a scan outside string literals,
    and, read left to right, they close those openers from the last one
    opened to the first: each unmatched opener is a brace or bracket standing
    at its recorded position of the input, and the positions grow with the
    order of appearance. *)
Theorem repair_closes_unmatched_openers (json : jsstring) :
  fixTruncatedJson json
    = json ++ (if isInsideString (scan json) then [QUOTE] else [])
           ++ appendedTerminators json
  /\ length (appendedTerminators json) = length (unmatchedOpeners json)
  /\ appendedTerminators json
     = map (fun p => closerOf (snd p)) (rev (unmatchedOpeners json))
  /\ Forall (fun p => nth_error json (fst p) = Some (snd p)
                      /\ isOpener (snd p) = true) (unmatchedOpeners json)
  /\ StronglySorted (fun p q => fst p < fst q) (unmatchedOpeners json).
Proof.
  destruct (scan_agrees json) as (_ & _ & Hstack).
  destruct (recorded_scan json) as (_ & Hnth & Hsorted & _).
  assert (Happ : appendedTerminators json
                 = map (fun p => closerOf (snd p)) (rev (unmatchedOpeners json))).
  { unfold appendedTerminators, unmatchedOpeners.
    rewrite rev_involutive. exact Hstack. }
  split; [apply fixTruncatedJson_eq|].
  split; [rewrite Happ, length_map, length_rev; reflexivity|].
  split; [exact Happ|].
  unfold unmatchedOpeners. split.
  - apply Forall_rev. exact Hnth.
  - apply StronglySorted_rev. exact Hsorted.
Qed.

(** The truncated text of the specification's end-to-end scenario: cut in the
    middle of the inner array, it gets the four closers of the two arrays and
    two objects that are open, innermost first. *)
Example repair_truncated_draws :
  fixTruncatedJson
    (jsq "{'draws':[{'id':'1','game':'Lotto','date':'2026-02-01','numbers':[1,2")
  = jsq "{'draws':[{'id':'1','game':'Lotto','date':'2026-02-01','numbers':[1,2]}]}"
  /\ unmatchedOpeners
       (jsq "{'draws':[{'id':'1','game':'Lotto','date':'2026-02-01','numbers':[1,2")
     = [(0, LBRACE); (9, LBRACKET); (10, LBRACE); (65, LBRACKET)].
Proof. split; vm_compute; reflexivity. Qed.

(** A closer of the wrong kind matches nothing: the bracket stays open. *)
Example repair_mismatched_closer :
  fixTruncatedJson (js "[}") = js "[}]"
  /\ unmatchedOpeners (js "[}") = [(0, LBRACKET)].
Proof. split; vm_compute; reflexivity. Qed.

(** ** Escapes *)

Lemma scanStep_backslash (inside : bool) (stk : list codeunit) :
  scanStep (mkScan inside false stk) BACKSLASH = mkScan inside true stk.
Proof. unfold scanStep; simpl. now destruct inside. Qed.

Lemma scanStep_escaped_backslash (inside : bool) (stk : list codeunit) :
  scanStep (mkScan inside true stk) BACKSLASH = mkScan inside false stk.
Proof. unfold scanStep; simpl. now destruct inside. Qed.

Lemma scanStep_escaped_quote (inside : bool) (stk : list codeunit) :
  scanStep (mkScan inside true stk) QUOTE = mkScan inside false stk.
Proof. unfold scanStep; simpl. now destruct inside. Qed.

Lemma scanStep_quote (inside : bool) (stk : list codeunit) :
  scanStep (mkScan inside false stk) QUOTE = mkScan (negb inside) false stk.
Proof. unfold scanStep; simpl. now destruct inside. Qed.

(** After a run of [n] backslashes the flag is set when [n] is odd. *)
Lemma scan_backslashes (n : nat) (inside : bool) (stk : list codeunit) :
  scanFrom (mkScan inside false stk) (repeat BACKSLASH n)
  = mkScan inside (Nat.odd n) stk.
Proof.
  induction n as [n IH] using (well_founded_induction Wf_nat.lt_wf).
  destruct n as [|[|n]]; try reflexivity.
  - apply scanStep_backslash.
  - change (repeat BACKSLASH (S (S n)))
      with ([BACKSLASH; BACKSLASH] ++ repeat BACKSLASH n).
    rewrite scanFrom_app. unfold scanFrom at 2; simpl fold_left.
    rewrite scanStep_backslash, scanStep_escaped_backslash, IH by lia.
    reflexivity.
Qed.

(** C3.  The escaped flag is set after a code unit exactly when that code
    unit is a backslash and the flag was clear before it.  In the five code
    units of the text quote, a, backslash, backslash, quote, the last quote
    ends the string.  A quote after one unescaped backslash leaves the
    in-string state as it was, a quote after two toggles it, and after a run
    of [n] backslashes the quote toggles it exactly when [n] is even. *)
Theorem escape_tracking
  (inside esc : bool) (stk : list codeunit) (c : codeunit) (n : nat) :
  (escaped (scanStep (mkScan inside esc stk) c) = true
   <-> c = BACKSLASH /\ esc = false)
  /\ map isInsideString (scanTrace initial (jsq "'a\\'"))
     = [true; true; true; true; false]
  /\ map escaped (scanTrace initial (jsq "'a\\'"))
     = [false; false; true; false; false]
  /\ isInsideString (scanFrom (mkScan inside false stk) [BACKSLASH; QUOTE]) = inside
  /\ isInsideString (scanFrom (mkScan inside false stk) [BACKSLASH; BACKSLASH; QUOTE])
     = negb inside
  /\ isInsideString (scanFrom (mkScan inside false stk) (repeat BACKSLASH n ++ [QUOTE]))
     = (if Nat.even n then negb inside else inside).
Proof.
  split.
  { unfold scanStep; simpl. rewrite andb_true_iff, N.eqb_eq, negb_true_iff.
    reflexivity. }
  split; [reflexivity|]. split; [reflexivity|].
  split.
  { unfold scanFrom; simpl fold_left.
    now rewrite scanStep_backslash, scanStep_escaped_quote. }
  split.
  { unfold scanFrom; simpl fold_left.
    now rewrite scanStep_backslash, scanStep_escaped_backslash, scanStep_quote. }
  rewrite scanFrom_app, scan_backslashes. unfold scanFrom; simpl fold_left.
  rewrite <- Nat.negb_even.
  destruct (Nat.even n); cbn [negb];
    [rewrite scanStep_quote | rewrite scanStep_escaped_quote]; reflexivity.
Qed.

(** ** Valid JSON is left alone *)

Section ValidJson.

(** Code units the scan ignores outside a string. *)
Definition inert (c : codeunit) : bool :=
  negb (N.eqb c QUOTE || N.eqb c BACKSLASH || isOpener c || isCloser c).

(** A text that takes the scan from outside a string back to outside a
    string with the stack as it was. *)
Definition neutral (pre : jsstring) : Prop :=
  forall stk, scanFrom (mkScan false false stk) pre = mkScan false false stk.

(** A text that pops the closer [c] and is neutral otherwise. *)
Definition closes (c : codeunit) (pre : jsstring) : Prop :=
  forall stk, scanFrom (mkScan false false (c :: stk)) pre = mkScan false false stk.

(** A text that ends the string the scan is in. *)
Definition endsString (pre : jsstring) : Prop :=
  forall stk, scanFrom (mkScan true false stk) pre = mkScan false false stk.

Lemma scanFrom_cons (st : ScanState) (c : codeunit) (s : jsstring) :
  scanFrom st (c :: s) = scanFrom (scanStep st c) s.
Proof. reflexivity. Qed.

Lemma scanStep_inert (c : codeunit) (stk : list codeunit) :
  inert c = true -> scanStep (mkScan false false stk) c = mkScan false false stk.
Proof.
  unfold inert, isOpener, isCloser, scanStep.
  cbn [isInsideString escaped stack negb andb].
  destruct (N.eqb c QUOTE), (N.eqb c BACKSLASH), (N.eqb c LBRACE),
    (N.eqb c LBRACKET), (N.eqb c RBRACE), (N.eqb c RBRACKET);
    cbn; intros H; try discriminate H; reflexivity.
Qed.

Lemma neutral_nil : neutral [].
Proof. intros stk. reflexivity. Qed.

Lemma neutral_inert (pre : jsstring) : forallb inert pre = true -> neutral pre.
Proof.
  induction pre as [|c pre IH]; simpl; intros H stk; [reflexivity|].
  apply andb_true_iff in H. destruct H as [Hc Hp].
  rewrite scanFrom_cons, scanStep_inert by assumption. now apply IH.
Qed.

Lemma neutral_app (a b : jsstring) : neutral a -> neutral b -> neutral (a ++ b).
Proof. intros Ha Hb stk. now rewrite scanFrom_app, Ha, Hb. Qed.

Lemma closes_app (c : codeunit) (a b : jsstring) :
  neutral a -> closes c b -> closes c (a ++ b).
Proof. intros Ha Hb stk. now rewrite scanFrom_app, Ha, Hb. Qed.

Lemma scanStep_open_brace (stk : list codeunit) :
  scanStep (mkScan false false stk) LBRACE = mkScan false false (RBRACE :: stk).
Proof. reflexivity. Qed.

Lemma scanStep_open_bracket (stk : list codeunit) :
  scanStep (mkScan false false stk) LBRACKET = mkScan false false (RBRACKET :: stk).
Proof. reflexivity. Qed.

Lemma closes_brace : closes RBRACE [RBRACE].
Proof. intros stk. reflexivity. Qed.

Lemma closes_bracket : closes RBRACKET [RBRACKET].
Proof. intros stk. reflexivity. Qed.

Lemma neutral_object (pre : jsstring) : closes RBRACE pre -> neutral (LBRACE :: pre).
Proof. intros H stk. now rewrite scanFrom_cons, scanStep_open_brace, H. Qed.

Lemma neutral_array (pre : jsstring) : closes RBRACKET pre -> neutral (LBRACKET :: pre).
Proof. intros H stk. now rewrite scanFrom_cons, scanStep_open_bracket, H. Qed.

Lemma neutral_string (pre : jsstring) : endsString pre -> neutral (QUOTE :: pre).
Proof. intros H stk. rewrite scanFrom_cons, scanStep_quote. apply H. Qed.

(** Inside a string a code unit that is neither a quote nor a backslash
    changes nothing, and after a backslash any code unit is skipped. *)
Lemma scanStep_in_string (c : codeunit) (stk : list codeunit) :
  N.eqb c QUOTE = false -> N.eqb c BACKSLASH = false ->
  scanStep (mkScan true false stk) c = mkScan true false stk.
Proof. intros Hq Hb. unfold scanStep; simpl. now rewrite Hq, Hb. Qed.

Lemma scanStep_after_backslash (c : codeunit) (stk : list codeunit) :
  scanStep (mkScan true true stk) c = mkScan true false stk.
Proof. unfold scanStep; simpl. now rewrite !andb_false_r. Qed.

Lemma endsString_plain (c : codeunit) (pre : jsstring) :
  N.eqb c QUOTE = false -> N.eqb c BACKSLASH = false ->
  endsString pre -> endsString (c :: pre).
Proof. intros Hq Hb H stk. now rewrite scanFrom_cons, scanStep_in_string. Qed.

Lemma endsString_escape (e : codeunit) (pre : jsstring) :
  endsString pre -> endsString (BACKSLASH :: e :: pre).
Proof.
  intros H stk.
  now rewrite !scanFrom_cons, scanStep_backslash, scanStep_after_backslash.
Qed.

Lemma endsString_quote : endsString [QUOTE].
Proof. intros stk. reflexivity. Qed.

Lemma hexValue_plain (c : codeunit) (v : N) :
  hexValue c = Some v -> N.eqb c QUOTE = false /\ N.eqb c BACKSLASH = false.
Proof.
  unfold hexValue, isDigit, QUOTE, BACKSLASH. intros H.
  split; apply N.eqb_neq; intros ->; discriminate H.
Qed.

End ValidJson.

(** ** What the parser consumes *)

Section ParserFacts.

Lemma isJsonSpace_inert (c : codeunit) : isJsonSpace c = true -> inert c = true.
Proof.
  unfold isJsonSpace. intros H.
  repeat (apply orb_true_iff in H; destruct H as [H|H]);
    apply N.eqb_eq in H; subst; reflexivity.
Qed.

Lemma skipWs_split (s : jsstring) :
  exists pre, s = pre ++ skipWs s /\ forallb inert pre = true.
Proof.
  induction s as [|c s (pre & Hs & Hp)]; simpl.
  - exists []. auto.
  - destruct (isJsonSpace c) eqn:Hc.
    + exists (c :: pre). simpl. rewrite Hp, (isJsonSpace_inert _ Hc).
      split; [now f_equal|reflexivity].
    + exists []. auto.
Qed.

Lemma skipWs_length (s : jsstring) : length (skipWs s) <= length s.
Proof.
  destruct (skipWs_split s) as (pre & Hs & _).
  rewrite Hs at 2. rewrite length_app. lia.
Qed.

Lemma skipWs_nil_neutral (s : jsstring) : skipWs s = [] -> neutral s.
Proof.
  intros H. destruct (skipWs_split s) as (pre & Hs & Hp).
  rewrite H, app_nil_r in Hs. subst. now apply neutral_inert.
Qed.

(** A string literal: the text up to and including its closing quote ends
    the string for the scan too. *)
Lemma parseStringBody_consumes (n : nat) :
  forall s str rest, length s <= n ->
  parseStringBody s = Some (str, rest) ->
  exists pre, s = pre ++ rest /\ endsString pre /\ pre <> [].
Proof.
  induction n as [|n IH]; intros s str rest Hlen H.
  - destruct s; [discriminate H | simpl in Hlen; lia].
  - destruct s as [|c r]; [discriminate H|]. simpl in Hlen.
    cbn [parseStringBody] in H.
    destruct (N.eqb c QUOTE) eqn:Hq.
    { apply N.eqb_eq in Hq. subst c. inversion H; subst.
      exists [QUOTE]. split; [reflexivity|]. split; [apply endsString_quote | discriminate]. }
    destruct (N.eqb c BACKSLASH) eqn:Hb.
    { apply N.eqb_eq in Hb. subst c.
      destruct r as [|e r1]; [discriminate H|].
      destruct (N.eqb e 117) eqn:Hu.
      - destruct r1 as [|h1 [|h2 [|h3 [|h4 r2]]]]; try discriminate H.
        unfold hex4 in H.
        destruct (hexValue h1) eqn:E1; [|discriminate H].
        destruct (hexValue h2) eqn:E2; [|discriminate H].
        destruct (hexValue h3) eqn:E3; [|discriminate H].
        destruct (hexValue h4) eqn:E4; [|discriminate H].
        destruct (parseStringBody r2) as [[str' rest']|] eqn:E; [|discriminate H].
        inversion H; subst. simpl in Hlen.
        destruct (IH r2 str' rest) as (pre & Hs & He & _); [lia|assumption|].
        exists (BACKSLASH :: e :: h1 :: h2 :: h3 :: h4 :: pre).
        split; [simpl; now rewrite Hs|]. split; [|discriminate].
        apply endsString_escape.
        destruct (hexValue_plain _ E1), (hexValue_plain _ E2),
          (hexValue_plain _ E3), (hexValue_plain _ E4).
        repeat (apply endsString_plain; [assumption|assumption|]). exact He.
      - destruct (simpleEscape e); [|discriminate H].
        destruct (parseStringBody r1) as [[str' rest']|] eqn:E; [|discriminate H].
        inversion H; subst. simpl in Hlen.
        destruct (IH r1 str' rest) as (pre & Hs & He & _); [lia|assumption|].
        exists (BACKSLASH :: e :: pre).
        split; [simpl; now rewrite Hs|]. split; [|discriminate].
        now apply endsString_escape. }
    destruct (c <? 32)%N; [discriminate H|].
    destruct (parseStringBody r) as [[str' rest']|] eqn:E; [|discriminate H].
    inversion H; subst.
    destruct (IH r str' rest) as (pre & Hs & He & _); [lia|assumption|].
    exists (c :: pre).
    split; [simpl; now rewrite Hs|]. split; [|discriminate].
    now apply endsString_plain.
Qed.

Lemma parseString_neutral (s str rest : jsstring) :
  parseStringBody s = Some (str, rest) ->
  exists pre, QUOTE :: s = pre ++ rest /\ neutral pre /\ length rest < length s.
Proof.
  intros H.
  destruct (parseStringBody_consumes (n := length s) s (le_n _) H)
    as (pre & Hs & He & Hne).
  exists (QUOTE :: pre). split; [|split].
  - simpl. now rewrite Hs.
  - now apply neutral_string.
  - rewrite Hs, length_app. destruct pre; [contradiction|simpl; lia].
Qed.

Lemma isDigit_inert (c : codeunit) : isDigit c = true -> inert c = true.
Proof.
  unfold isDigit. intros H. apply andb_true_iff in H. destruct H as [H1 H2].
  apply N.leb_le in H1, H2.
  unfold inert, isOpener, isCloser, QUOTE, BACKSLASH, LBRACE, RBRACE, LBRACKET, RBRACKET.
  repeat match goal with
         | |- context [N.eqb c ?k] =>
           let E := fresh in
           destruct (N.eqb c k) eqn:E; [apply N.eqb_eq in E; lia|]
         end.
  reflexivity.
Qed.

Lemma spanDigits_split (s : jsstring) :
  s = fst (spanDigits s) ++ snd (spanDigits s)
  /\ forallb inert (fst (spanDigits s)) = true.
Proof.
  induction s as [|c s [Hs Hd]]; simpl; auto.
  destruct (isDigit c) eqn:Hc; simpl; auto.
  destruct (spanDigits s) as [ds rest]; simpl in *.
  rewrite Hd, (isDigit_inert _ Hc). split; [now f_equal|reflexivity].
Qed.

(** The parts of a number are made of digits, signs, a dot and an [e]. *)
Definition consumed {A} (s : jsstring) (r : option (A * jsstring)) : Prop :=
  forall x rest, r = Some (x, rest) ->
  exists pre, s = pre ++ rest /\ forallb inert pre = true.

Lemma takeSign_consumes (s : jsstring) :
  exists pre, s = pre ++ snd (takeSign s) /\ forallb inert pre = true.
Proof.
  destruct s as [|c r]; simpl; [now exists []|].
  destruct (N.eqb c 45) eqn:E; simpl; [|now exists []].
  apply N.eqb_eq in E. subst. now exists [45%N].
Qed.

Lemma takeInt_consumes (s : jsstring) (ip rest : jsstring) :
  takeInt s = Some (ip, rest) ->
  exists pre, s = pre ++ rest /\ forallb inert pre = true /\ pre <> [].
Proof.
  destruct s as [|c r]; simpl; [discriminate|].
  destruct (N.eqb c 48) eqn:E.
  - apply N.eqb_eq in E. subst. intros H; inversion H; subst.
    exists [48%N]. repeat split. discriminate.
  - destruct (isDigit c) eqn:Hc; [|discriminate].
    destruct (spanDigits_split r) as [Hs Hd].
    destruct (spanDigits r) as [ds rest']; simpl in *.
    intros H; inversion H; subst.
    exists (c :: ds). simpl. rewrite Hd, (isDigit_inert _ Hc).
    split; [now f_equal|]. split; [reflexivity|discriminate].
Qed.

Lemma takeFraction_consumes (s : jsstring) : consumed s (takeFraction s).
Proof.
  intros fp rest. destruct s as [|c r]; simpl.
  - intros H; inversion H. now exists [].
  - destruct (N.eqb c 46) eqn:E.
    + apply N.eqb_eq in E. subst.
      destruct (spanDigits_split r) as [Hs Hd].
      destruct (spanDigits r) as [[|f fs] rest']; [discriminate|]; simpl in *.
      intros H; inversion H; subst.
      exists (46%N :: f :: fs). split; [simpl; now f_equal|].
      cbn [forallb] in *. rewrite Hd. reflexivity.
    + intros H; inversion H. now exists [].
Qed.

Lemma takeExponent_consumes (s : jsstring) : consumed s (takeExponent s).
Proof.
  intros e rest. destruct s as [|c r]; simpl.
  - intros H; inversion H. now exists [].
  - destruct (N.eqb c 101 || N.eqb c 69) eqn:E.
    + assert (Hc : inert c = true).
      { apply orb_true_iff in E. destruct E as [E|E];
          apply N.eqb_eq in E; subst; reflexivity. }
      assert (Hsign : exists sg r1,
                 r = sg ++ r1 /\ forallb inert sg = true /\
                 exists minus,
                   (let (m, r1') :=
                      match r with
                      | sg :: r' =>
                        if N.eqb sg 45 then (true, r')
                        else if N.eqb sg 43 then (false, r')
                        else (false, r)
                      | [] => (false, r)
                      end in (m, r1')) = (minus, r1)).
      { destruct r as [|sg r']; [exists [], []; repeat split; now exists false|].
        destruct (N.eqb sg 45) eqn:E1.
        { apply N.eqb_eq in E1; subst. exists [45%N], r'. repeat split. now exists true. }
        destruct (N.eqb sg 43) eqn:E2.
        { apply N.eqb_eq in E2; subst. exists [43%N], r'. repeat split. now exists false. }
        exists [], (sg :: r'). repeat split. now exists false. }
      destruct Hsign as (sg & r1 & Hr & Hsg & minus & Hm).
      destruct (match r with
                | [] => (false, r)
                | sg0 :: r' =>
                  if N.eqb sg0 45 then (true, r')
                  else if N.eqb sg0 43 then (false, r') else (false, r)
                end) as [m r1'].
      inversion Hm; subst m r1'.
      destruct (spanDigits_split r1) as [Hs Hd].
      destruct (spanDigits r1) as [[|d ds] rest']; [discriminate|]; simpl in *.
      intros H; inversion H; subst rest'.
      exists (c :: sg ++ d :: ds). split.
      * simpl. f_equal. rewrite Hr, <- app_assoc. f_equal. exact Hs.
      * simpl. rewrite Hc, forallb_app, Hsg. exact Hd.
    + intros H; inversion H. now exists [].
Qed.

Lemma parseNumber_consumes (s : jsstring) (d : Decimal) (rest : jsstring) :
  parseNumber s = Some (d, rest) ->
  exists pre, s = pre ++ rest /\ neutral pre /\ length rest < length s.
Proof.
  unfold parseNumber. destruct (takeSign_consumes s) as (p0 & H0 & I0).
  destruct (takeSign s) as [neg s1]; simpl in H0.
  destruct (takeInt s1) as [[ip s2]|] eqn:E1; [|discriminate].
  destruct (takeInt_consumes _ E1) as (p1 & H1 & I1 & N1).
  destruct (takeFraction s2) as [[fp s3]|] eqn:E2; [|discriminate].
  destruct (takeFraction_consumes s2 E2) as (p2 & H2 & I2).
  destruct (takeExponent s3) as [[e rest']|] eqn:E3; [|discriminate].
  destruct (takeExponent_consumes s3 E3) as (p3 & H3 & I3).
  intros H; inversion H; subst rest'.
  exists (p0 ++ p1 ++ p2 ++ p3). split; [|split].
  - rewrite H0, H1, H2, H3, <- !app_assoc. reflexivity.
  - apply neutral_inert. now rewrite !forallb_app, I0, I1, I2, I3.
  - rewrite H0, H1, H2, H3, !length_app.
    destruct p1; [contradiction|simpl; lia].
Qed.

Lemma startsWith_split (p s : jsstring) :
  startsWith p s = true -> s = p ++ skipn (length p) s.
Proof.
  revert s. induction p as [|x p IH]; intros [|y s]; simpl; try discriminate; auto.
  intros H. apply andb_true_iff in H. destruct H as [Hx Hp].
  apply N.eqb_eq in Hx. subst. f_equal. now apply IH.
Qed.

Lemma length_js (w : string) : length (js w) = String.length w.
Proof.
  unfold js. rewrite length_map. induction w; simpl; auto.
Qed.

Lemma literal_consumes (w : string) (v v' : JSValue) (s rest : jsstring) :
  forallb inert (js w) = true -> js w <> [] ->
  literal w v s = Parsed (v', rest) ->
  exists pre, s = pre ++ rest /\ neutral pre /\ length rest < length s.
Proof.
  unfold literal. intros Hi Hne. destruct (startsWith (js w) s) eqn:E; [|discriminate].
  intros H; inversion H; subst. apply startsWith_split in E.
  rewrite <- length_js. exists (js w). split; [exact E|]. split.
  - now apply neutral_inert.
  - rewrite E at 2. rewrite length_app.
    destruct (js w); [contradiction|simpl; lia].
Qed.

(** *** Values, elements and members *)

Definition valueOk (fuel : nat) : Prop :=
  forall s v rest, parseValue fuel s = Parsed (v, rest) ->
  exists pre, s = pre ++ rest /\ neutral pre /\ length rest < length s.

Definition elementsOk (fuel : nat) : Prop :=
  forall s acc v rest, parseElements fuel s acc = Parsed (v, rest) ->
  exists pre, s = pre ++ rest /\ closes RBRACKET pre /\ length rest < length s.

Definition membersOk (fuel : nat) : Prop :=
  forall s acc v rest, parseMembers fuel s acc = Parsed (v, rest) ->
  exists pre, s = pre ++ rest /\ closes RBRACE pre /\ length rest < length s.

Local Arguments N.eqb : simpl never.
Local Arguments skipWs : simpl never.
Local Arguments parseStringBody : simpl never.
Local Arguments parseNumber : simpl never.
Local Arguments literal : simpl never.
Local Arguments isDigit : simpl never.
Local Arguments setProp : simpl never.

Ltac eqb_subst E :=
  apply N.eqb_eq in E;
  match type of E with ?c = _ => subst c end.

Lemma valueOk_step (fuel : nat) :
  valueOk fuel -> elementsOk fuel -> membersOk fuel -> valueOk (S fuel).
Proof.
  intros IHv IHe IHm s v rest H. simpl in H.
  destruct (skipWs_split s) as (w & Hs & Hw). apply neutral_inert in Hw.
  destruct (skipWs s) as [|c r]; [discriminate|].
  assert (Hwrap : forall pre,
             c :: r = pre ++ rest -> neutral pre -> length rest < length (c :: r) ->
             exists pre', s = pre' ++ rest /\ neutral pre' /\ length rest < length s).
  { intros pre Hp Hn Hl. exists (w ++ pre). split; [|split].
    - now rewrite Hs, Hp, app_assoc.
    - now apply neutral_app.
    - rewrite Hs, length_app. lia. }
  destruct (N.eqb c LBRACE) eqn:E1.
  { eqb_subst E1. destruct (skipWs_split r) as (w' & Hr & Hw').
    apply neutral_inert in Hw'.
    destruct (skipWs r) as [|c' r']; [discriminate|].
    destruct (N.eqb c' RBRACE) eqn:E2.
    - eqb_subst E2. inversion H; subst v rest.
      apply (Hwrap (LBRACE :: w' ++ [RBRACE])).
      + simpl. now rewrite Hr, <- app_assoc.
      + apply neutral_object, closes_app; [assumption|apply closes_brace].
      + rewrite Hr, !length_cons, length_app. simpl. lia.
    - destruct (IHm _ _ _ _ H) as (pre & Hp & Hc & Hl).
      apply (Hwrap (LBRACE :: pre)).
      + simpl. now rewrite <- Hp.
      + now apply neutral_object.
      + simpl. lia. }
  destruct (N.eqb c LBRACKET) eqn:E2.
  { eqb_subst E2. destruct (skipWs_split r) as (w' & Hr & Hw').
    apply neutral_inert in Hw'.
    destruct (skipWs r) as [|c' r']; [discriminate|].
    destruct (N.eqb c' RBRACKET) eqn:E3.
    - eqb_subst E3. inversion H; subst v rest.
      apply (Hwrap (LBRACKET :: w' ++ [RBRACKET])).
      + simpl. now rewrite Hr, <- app_assoc.
      + apply neutral_array, closes_app; [assumption|apply closes_bracket].
      + rewrite Hr, !length_cons, length_app. simpl. lia.
    - destruct (IHe _ _ _ _ H) as (pre & Hp & Hc & Hl).
      apply (Hwrap (LBRACKET :: pre)).
      + simpl. now rewrite <- Hp.
      + now apply neutral_array.
      + simpl. lia. }
  destruct (N.eqb c QUOTE) eqn:E3.
  { eqb_subst E3.
    destruct (parseStringBody r) as [[str rest']|] eqn:Es; [|discriminate].
    inversion H; subst v rest'.
    destruct (parseString_neutral _ Es) as (pre & Hp & Hn & Hl).
    apply (Hwrap pre); auto. simpl. lia. }
  destruct (N.eqb c 45 || isDigit c).
  { destruct (parseNumber (c :: r)) as [[d rest']|] eqn:En; [|discriminate].
    inversion H; subst v rest'.
    destruct (parseNumber_consumes _ En) as (pre & Hp & Hn & Hl).
    now apply (Hwrap pre). }
  destruct (N.eqb c 116).
  { destruct (literal_consumes "true" (JBool true) (c :: r)
                eq_refl ltac:(discriminate) H) as (pre & Hp & Hn & Hl).
    now apply (Hwrap pre). }
  destruct (N.eqb c 102).
  { destruct (literal_consumes "false" (JBool false) (c :: r)
                eq_refl ltac:(discriminate) H) as (pre & Hp & Hn & Hl).
    now apply (Hwrap pre). }
  destruct (N.eqb c 110); [|discriminate].
  destruct (literal_consumes "null" JNull (c :: r)
              eq_refl ltac:(discriminate) H) as (pre & Hp & Hn & Hl).
  now apply (Hwrap pre).
Qed.

Lemma closes_inert (k c : codeunit) (pre : jsstring) :
  inert c = true -> closes k pre -> closes k (c :: pre).
Proof. intros Hc H stk. now rewrite scanFrom_cons, scanStep_inert. Qed.

Lemma elementsOk_step (fuel : nat) :
  valueOk fuel -> elementsOk fuel -> elementsOk (S fuel).
Proof.
  intros IHv IHe s acc v rest H. simpl in H.
  destruct (parseValue fuel s) as [[v0 rest0]| |] eqn:Ev; try discriminate.
  destruct (IHv _ _ _ Ev) as (p1 & H1 & N1 & L1).
  destruct (skipWs_split rest0) as (w & Hw & Iw). apply neutral_inert in Iw.
  destruct (skipWs rest0) as [|c r]; [discriminate|].
  destruct (N.eqb c COMMA) eqn:E1.
  - eqb_subst E1. destruct (IHe _ _ _ _ H) as (p2 & H2 & C2 & L2).
    exists (p1 ++ w ++ COMMA :: p2). split; [|split].
    + rewrite H1, Hw, H2, <- !app_assoc. reflexivity.
    + apply closes_app; [assumption|]. apply closes_app; [assumption|].
      now apply closes_inert.
    + rewrite H1, Hw, !length_app. simpl. lia.
  - destruct (N.eqb c RBRACKET) eqn:E2; [|discriminate].
    eqb_subst E2. inversion H; subst v rest.
    exists (p1 ++ w ++ [RBRACKET]). split; [|split].
    + rewrite H1, Hw, <- !app_assoc. reflexivity.
    + apply closes_app; [assumption|]. apply closes_app; [assumption|].
      apply closes_bracket.
    + rewrite H1, Hw, !length_app. simpl. lia.
Qed.

Lemma membersOk_step (fuel : nat) :
  valueOk fuel -> membersOk fuel -> membersOk (S fuel).
Proof.
  intros IHv IHm s acc v rest H. simpl in H.
  destruct (skipWs_split s) as (w0 & Hs & I0). apply neutral_inert in I0.
  destruct (skipWs s) as [|c r]; [discriminate|].
  destruct (N.eqb c QUOTE) eqn:E0; [|discriminate]. eqb_subst E0.
  destruct (parseStringBody r) as [[key rest1]|] eqn:Ek; [|discriminate].
  destruct (parseString_neutral _ Ek) as (pk & Hk & Nk & Lk).
  destruct (skipWs_split rest1) as (w1 & Hw1 & I1). apply neutral_inert in I1.
  destruct (skipWs rest1) as [|c2 r2]; [discriminate|].
  destruct (N.eqb c2 COLON) eqn:E2; [|discriminate]. eqb_subst E2.
  destruct (parseValue fuel r2) as [[v0 rest2]| |] eqn:Ev; try discriminate.
  destruct (IHv _ _ _ Ev) as (pv & Hv & Nv & Lv).
  destruct (skipWs_split rest2) as (w2 & Hw2 & I2). apply neutral_inert in I2.
  destruct (skipWs rest2) as [|c3 r3]; [discriminate|].
  assert (Hhead : s = (w0 ++ pk ++ w1 ++ COLON :: pv ++ w2) ++ c3 :: r3).
  { rewrite Hs, Hk, Hw1, Hv, Hw2, <- !app_assoc. simpl.
    rewrite <- !app_assoc. reflexivity. }
  assert (Nhead : neutral (w0 ++ pk ++ w1 ++ COLON :: pv ++ w2)).
  { apply neutral_app; [exact I0|]. apply neutral_app; [exact Nk|].
    apply neutral_app; [exact I1|].
    change (COLON :: pv ++ w2) with ([COLON] ++ pv ++ w2).
    apply neutral_app; [apply neutral_inert; reflexivity|].
    apply neutral_app; assumption. }
  destruct (N.eqb c3 COMMA) eqn:E3.
  - eqb_subst E3. destruct (IHm _ _ _ _ H) as (p2 & H2 & C2 & L2).
    exists ((w0 ++ pk ++ w1 ++ COLON :: pv ++ w2) ++ COMMA :: p2). split; [|split].
    + rewrite Hhead, H2. exact (app_assoc _ (COMMA :: p2) rest).
    + apply closes_app; [assumption|]. now apply closes_inert.
    + rewrite Hhead, !length_app. simpl. lia.
  - destruct (N.eqb c3 RBRACE) eqn:E4; [|discriminate].
    eqb_subst E4. inversion H; subst v rest.
    exists ((w0 ++ pk ++ w1 ++ COLON :: pv ++ w2) ++ [RBRACE]). split; [|split].
    + rewrite Hhead. exact (app_assoc _ [RBRACE] r3).
    + apply closes_app; [assumption|apply closes_brace].
    + rewrite Hhead, !length_app. simpl. lia.
Qed.

Lemma parse_consumes (fuel : nat) : valueOk fuel /\ elementsOk fuel /\ membersOk fuel.
Proof.
  induction fuel as [|fuel (IHv & IHe & IHm)].
  - repeat split; intros s; intros; discriminate.
  - split; [|split].
    + now apply valueOk_step.
    + now apply elementsOk_step.
    + now apply membersOk_step.
Qed.

(** A text that [JSON.parse] accepts is neutral for the scan. *)
Lemma parsed_text_neutral (T : jsstring) (v : JSValue) :
  JSON_parse T = Parsed v -> scan T = initial.
Proof.
  unfold JSON_parse. intros H.
  destruct (parseValue (2 * length T + 2) T) as [[v0 rest]| |] eqn:Ev;
    try discriminate.
  destruct (proj1 (parse_consumes _) _ _ _ Ev) as (pre & Hp & Hn & _).
  destruct (skipWs rest) eqn:Er; [|discriminate].
  apply skipWs_nil_neutral in Er.
  rewrite Hp. unfold scan. apply (neutral_app Hn Er).
Qed.

(** *** The fuel is enough *)

Definition valueFuel (fuel : nat) : Prop :=
  forall s, 2 * length s + 1 <= fuel -> parseValue fuel s <> OutOfFuel.

Definition elementsFuel (fuel : nat) : Prop :=
  forall s acc, 2 * length s + 2 <= fuel -> parseElements fuel s acc <> OutOfFuel.

Definition membersFuel (fuel : nat) : Prop :=
  forall s acc, 2 * length s + 2 <= fuel -> parseMembers fuel s acc <> OutOfFuel.

Lemma skipWs_cons_length (s r : jsstring) (c : codeunit) :
  skipWs s = c :: r -> length r < length s.
Proof.
  intros H. pose proof (skipWs_length s) as L. rewrite H in L. simpl in L. lia.
Qed.

Lemma valueFuel_step (fuel : nat) :
  elementsFuel fuel -> membersFuel fuel -> valueFuel (S fuel).
Proof.
  intros IHe IHm s Hf. simpl.
  destruct (skipWs s) as [|c r] eqn:Es; [discriminate|].
  apply skipWs_cons_length in Es.
  destruct (N.eqb c LBRACE).
  { destruct (skipWs r) as [|c' r']; [discriminate|].
    destruct (N.eqb c' RBRACE); [discriminate|]. apply IHm. lia. }
  destruct (N.eqb c LBRACKET).
  { destruct (skipWs r) as [|c' r']; [discriminate|].
    destruct (N.eqb c' RBRACKET); [discriminate|]. apply IHe. lia. }
  destruct (N.eqb c QUOTE).
  { destruct (parseStringBody r) as [[? ?]|]; discriminate. }
  destruct (N.eqb c 45 || isDigit c).
  { destruct (parseNumber (c :: r)) as [[? ?]|]; discriminate. }
  unfold literal.
  repeat match goal with
         | |- context [if ?b then _ else _] => destruct b
         end; discriminate.
Qed.

Lemma elementsFuel_step (fuel : nat) :
  valueFuel fuel -> elementsFuel fuel -> elementsFuel (S fuel).
Proof.
  intros IHv IHe s acc Hf. simpl.
  destruct (parseValue fuel s) as [[v0 rest0]| |] eqn:Ev; [|discriminate|].
  - destruct (proj1 (parse_consumes fuel) _ _ _ Ev) as (_ & _ & _ & L).
    destruct (skipWs rest0) as [|c r] eqn:Es; [discriminate|].
    apply skipWs_cons_length in Es.
    destruct (N.eqb c COMMA); [apply IHe; lia|].
    destruct (N.eqb c RBRACKET); discriminate.
  - exfalso. apply (IHv s); [lia|assumption].
Qed.

Lemma membersFuel_step (fuel : nat) :
  valueFuel fuel -> membersFuel fuel -> membersFuel (S fuel).
Proof.
  intros IHv IHm s acc Hf. simpl.
  destruct (skipWs s) as [|c r] eqn:Es; [discriminate|].
  apply skipWs_cons_length in Es.
  destruct (N.eqb c QUOTE); [|discriminate].
  destruct (parseStringBody r) as [[key rest1]|] eqn:Ek; [|discriminate].
  destruct (parseString_neutral _ Ek) as (_ & _ & _ & Lk).
  destruct (skipWs rest1) as [|c2 r2] eqn:E1; [discriminate|].
  apply skipWs_cons_length in E1.
  destruct (N.eqb c2 COLON); [|discriminate].
  destruct (parseValue fuel r2) as [[v0 rest2]| |] eqn:Ev; [|discriminate|].
  - destruct (proj1 (parse_consumes fuel) _ _ _ Ev) as (_ & _ & _ & L).
    destruct (skipWs rest2) as [|c3 r3] eqn:E2; [discriminate|].
    apply skipWs_cons_length in E2.
    destruct (N.eqb c3 COMMA); [apply IHm; lia|].
    destruct (N.eqb c3 RBRACE); discriminate.
  - exfalso. apply (IHv r2); [lia|assumption].
Qed.

Lemma parse_fuel (fuel : nat) : valueFuel fuel /\ elementsFuel fuel /\ membersFuel fuel.
Proof.
  induction fuel as [|fuel (IHv & IHe & IHm)].
  - repeat split; intros s; intros; simpl in *; lia.
  - split; [|split].
    + now apply valueFuel_step.
    + now apply elementsFuel_step.
    + now apply membersFuel_step.
Qed.

(** [JSON.parse] returns a value or throws: the recursion bound is never
    reached. *)
Lemma JSON_parse_total (text : jsstring) :
  JSON_parse text = SyntaxError \/ exists v, JSON_parse text = Parsed v.
Proof.
  unfold JSON_parse.
  pose proof (proj1 (parse_fuel (2 * length text + 2)) text) as Hf.
  destruct (parseValue (2 * length text + 2) text) as [[v rest]| |].
  - destruct (skipWs rest); [right; now exists v | now left].
  - now left.
  - exfalso. apply Hf; [lia|reflexivity].
Qed.

End ParserFacts.

(** A text whose scan ends outside a string with an empty stack gets nothing
    appended. *)
Lemma fixTruncatedJson_balanced (T : jsstring) :
  isInsideString (scan T) = false -> stack (scan T) = [] ->
  fixTruncatedJson T = T.
Proof.
  intros Hi Hs. rewrite fixTruncatedJson_eq. unfold appendedTerminators.
  rewrite Hi, Hs. now rewrite !app_nil_r.
Qed.

Lemma fixTruncatedJson_parsed (T : jsstring) (v : JSValue) :
  JSON_parse T = Parsed v -> fixTruncatedJson T = T.
Proof.
  intros H. pose proof (parsed_text_neutral _ H) as Hn.
  apply fixTruncatedJson_balanced; now rewrite Hn.
Qed.

(** C2.  A text that [JSON.parse] accepts has, for the repair scan, balanced
    brackets outside strings and no open string; the repair returns it
    unchanged, so parsing the repaired text gives the value of parsing the
    text itself. *)
Theorem repair_keeps_valid_json (T : jsstring) (v : JSValue) :
  JSON_parse T = Parsed v ->
  isInsideString (scan T) = false
  /\ stack (scan T) = []
  /\ fixTruncatedJson T = T
  /\ JSON_parse (fixTruncatedJson T) = Parsed v.
Proof.
  intros H. pose proof (parsed_text_neutral _ H) as Hn.
  rewrite (fixTruncatedJson_parsed _ H), Hn. auto.
Qed.

Lemma repair_keeps_valid_json_witness :
  isInsideString (scan (jsq "{'draws':[{'game':'Lotto','numbers':[1,2]}]}")) = false
  /\ stack (scan (jsq "{'draws':[{'game':'Lotto','numbers':[1,2]}]}")) = []
  /\ fixTruncatedJson (jsq "{'draws':[{'game':'Lotto','numbers':[1,2]}]}")
     = jsq "{'draws':[{'game':'Lotto','numbers':[1,2]}]}"
  /\ JSON_parse (fixTruncatedJson (jsq "{'draws':[{'game':'Lotto','numbers':[1,2]}]}"))
     = Parsed (JObject
         [(js "draws",
           JArray [JObject
             [(js "game", JString (js "Lotto"));
              (js "numbers",
               JArray [JNumber (mkDecimal false 1 0); JNumber (mkDecimal false 2 0)])]])]).
Proof.
  apply (@repair_keeps_valid_json
           (jsq "{'draws':[{'game':'Lotto','numbers':[1,2]}]}")).
  vm_compute. reflexivity.
Defined.

(** When the normalized text parses, [cleanJsonString] returns it as it is:
    the repair is not even called. *)
Lemma cleanJsonString_valid (str : jsstring) (v : JSValue) :
  JSON_parse (normalize str) = Parsed v -> cleanJsonString str = normalize str.
Proof. unfold cleanJsonString. intros H. now rewrite H. Qed.

(** Whether or not the trial parse succeeds, [cleanJsonString] is the repair
    of the normalized text. *)
Lemma cleanJsonString_repairs (str : jsstring) :
  cleanJsonString str = fixTruncatedJson (normalize str).
Proof.
  unfold cleanJsonString.
  destruct (JSON_parse (normalize str)) as [v| |] eqn:E; try reflexivity.
  symmetry. exact (fixTruncatedJson_parsed _ E).
Qed.

(** ** The normalizer *)

Section NormalizerFacts.

Lemma jsstring_eqb_eq (a b : jsstring) : JsString.eqb a b = true <-> a = b.
Proof.
  revert b. induction a as [|x a IH]; intros [|y b]; simpl;
    try (split; [discriminate|discriminate]); [tauto|].
  rewrite andb_true_iff, N.eqb_eq, IH.
  split; [intros [-> ->]; reflexivity | intros H; inversion H; auto].
Qed.

(** The closing pattern removes nothing, a fence, or a line feed and a
    fence, and only from the end. *)
Lemma stripClosingFence_split (s : jsstring) :
  exists closing,
    s = stripClosingFence s ++ closing
    /\ In closing [[]; FENCE; NEWLINE :: FENCE].
Proof.
  induction s as [|c s (closing & Hs & Hin)].
  - exists []. simpl. auto.
  - cbn [stripClosingFence].
    destruct (closingFenceHere (c :: s)) eqn:E.
    + exists (c :: s). split; [reflexivity|].
      unfold closingFenceHere in E. apply orb_true_iff in E.
      destruct E as [E|E]; apply jsstring_eqb_eq in E; rewrite E; simpl; auto.
    + exists closing. split; [simpl; now f_equal | exact Hin].
Qed.

(** The opening pattern removes the fence, the tag when it is there and one
    line feed when it is there. *)
Lemma stripOpeningFence_split (s : jsstring) :
  startsWith FENCE s = true ->
  exists opening,
    s = opening ++ stripOpeningFence s
    /\ In opening [FENCE; FENCE ++ [NEWLINE]; FENCE ++ js "json";
                   FENCE ++ js "json" ++ [NEWLINE]].
Proof.
  intros H. unfold stripOpeningFence. rewrite H.
  pose proof (startsWith_split _ _ H) as H0. simpl length in H0.
  set (s1 := skipn 3 s) in *.
  destruct (startsWith (js "json") s1) eqn:E1.
  - pose proof (startsWith_split _ _ E1) as H1.
    change (length (js "json")) with 4 in H1. set (s2 := skipn 4 s1) in *.
    destruct (startsWith [NEWLINE] s2) eqn:E2.
    + pose proof (startsWith_split _ _ E2) as H2. simpl length in H2.
      exists (FENCE ++ js "json" ++ [NEWLINE]). split; [|simpl; auto].
      rewrite H0, H1 at 1. rewrite H2 at 1. now rewrite <- !app_assoc.
    + exists (FENCE ++ js "json"). split; [|simpl; auto].
      rewrite H0, H1 at 1. now rewrite <- !app_assoc.
  - destruct (startsWith [NEWLINE] s1) eqn:E2.
    + pose proof (startsWith_split _ _ E2) as H2. simpl length in H2.
      exists (FENCE ++ [NEWLINE]). split; [|simpl; auto].
      rewrite H0 at 1. rewrite H2 at 1. now rewrite <- !app_assoc.
    + exists FENCE. split; [exact H0|simpl; auto].
Qed.

(** C10.  When the trimmed input does not start with a fence no fence is
    removed, a closing fence included: the text that goes on to the comma
    step is the trimmed input.  When it does, the result is the
    trimmed input without one opening (the fence, with or without the tag
    and one line feed) and without at most one closing (a fence, with or
    without a line feed before it). *)
Theorem fences_only_after_opening_fence (str : jsstring) :
  (if startsWith FENCE (trim str)
   then exists opening closing,
          trim str = opening ++ stripFences str ++ closing
          /\ In opening [FENCE; FENCE ++ [NEWLINE]; FENCE ++ js "json";
                         FENCE ++ js "json" ++ [NEWLINE]]
          /\ In closing [[]; FENCE; NEWLINE :: FENCE]
   else stripFences str = trim str
        /\ normalize str = removeTrailingCommas (trim str))
  /\ stripFences (jsq "{'draws': []}```") = jsq "{'draws': []}```"
  /\ normalize (jsq "{'draws': []}```") = jsq "{'draws': []}```"
  /\ stripFences (js "```json```json[]``````") = js "```json[]```".
Proof.
  split; [|repeat split; vm_compute; reflexivity].
  unfold normalize, stripFences.
  destruct (startsWith FENCE (trim str)) eqn:E; [|split; reflexivity].
  destruct (stripOpeningFence_split _ E) as (opening & Ho & Io).
  destruct (stripClosingFence_split (stripOpeningFence (trim str)))
    as (closing & Hc & Ic).
  exists opening, closing. split; [|split]; try assumption.
  rewrite <- Hc. exact Ho.
Qed.

(** *** Trailing commas *)

Lemma closerAfterSpaces_shorter (s rest : jsstring) (b : codeunit) :
  closerAfterSpaces s = Some (b, rest) -> length rest < length s.
Proof.
  induction s as [|c s IH]; simpl; [discriminate|].
  destruct (isWhiteSpace c).
  - intros H. specialize (IH H). lia.
  - destruct (isCloser c); [|discriminate]. intros H; inversion H; subst. lia.
Qed.

(** The bound on the recursion does not matter once it covers the text. *)
Lemma replaceTrailingCommas_fuel (n : nat) :
  forall m s, length s <= n -> length s <= m ->
  replaceTrailingCommas n s = replaceTrailingCommas m s.
Proof.
  induction n as [|n IH]; intros m s Hn Hm.
  - destruct s; [|simpl in Hn; lia]. now destruct m.
  - destruct s as [|c r]; [now destruct m|].
    destruct m as [|m]; [simpl in Hm; lia|]. simpl in Hn, Hm |- *.
    destruct (N.eqb c COMMA).
    + destruct (closerAfterSpaces r) as [[b rest]|] eqn:E.
      * apply closerAfterSpaces_shorter in E. f_equal. apply IH; lia.
      * f_equal. apply IH; lia.
    + f_equal. apply IH; lia.
Qed.

(** The replacement, one code unit at a time. *)
Lemma removeTrailingCommas_cons (c : codeunit) (r : jsstring) :
  removeTrailingCommas (c :: r)
  = if N.eqb c COMMA then
      match closerAfterSpaces r with
      | Some (bracket, rest) => bracket :: removeTrailingCommas rest
      | None => c :: removeTrailingCommas r
      end
    else c :: removeTrailingCommas r.
Proof.
  unfold removeTrailingCommas. simpl.
  destruct (N.eqb c COMMA); [|reflexivity].
  destruct (closerAfterSpaces r) as [[b rest]|] eqn:E; [|reflexivity].
  apply closerAfterSpaces_shorter in E. f_equal.
  apply replaceTrailingCommas_fuel; lia.
Qed.

Lemma isCloser_not_space (b : codeunit) : isCloser b = true -> isWhiteSpace b = false.
Proof.
  unfold isCloser. intros H. apply orb_true_iff in H.
  destruct H as [H|H]; apply N.eqb_eq in H; subst; reflexivity.
Qed.

Lemma closerAfterSpaces_match (ws : jsstring) (b : codeunit) (rest : jsstring) :
  forallb isWhiteSpace ws = true -> isCloser b = true ->
  closerAfterSpaces (ws ++ b :: rest) = Some (b, rest).
Proof.
  intros Hws Hb. induction ws as [|w ws IH]; simpl in *.
  - now rewrite (isCloser_not_space _ Hb), Hb.
  - apply andb_true_iff in Hws. destruct Hws as [Hw Hws]. rewrite Hw. auto.
Qed.

(** A match that starts before a comma ends before it. *)
Lemma closerAfterSpaces_before_comma (a x : jsstring) :
  closerAfterSpaces (a ++ COMMA :: x)
  = match closerAfterSpaces a with
    | Some (b, r) => Some (b, r ++ COMMA :: x)
    | None => None
    end.
Proof.
  induction a as [|c a IH]; simpl; [reflexivity|].
  destruct (isWhiteSpace c); [exact IH|].
  destruct (isCloser c); reflexivity.
Qed.

Lemma removeTrailingCommas_before_comma (n : nat) :
  forall a x, length a <= n ->
  removeTrailingCommas (a ++ COMMA :: x)
  = removeTrailingCommas a ++ removeTrailingCommas (COMMA :: x).
Proof.
  induction n as [|n IH]; intros a x Hn.
  - destruct a; [reflexivity|simpl in Hn; lia].
  - destruct a as [|c a]; [reflexivity|]. simpl in Hn.
    rewrite <- app_comm_cons, !(removeTrailingCommas_cons c).
    destruct (N.eqb c COMMA).
    + rewrite closerAfterSpaces_before_comma.
      destruct (closerAfterSpaces a) as [[b r]|] eqn:E.
      * apply closerAfterSpaces_shorter in E. simpl. f_equal. apply IH. lia.
      * simpl. f_equal. apply IH. lia.
    + simpl. f_equal. apply IH. lia.
Qed.

(** C7, as the code has it.  A comma followed by whitespace and a closing
    brace or bracket is replaced, with the whitespace, by the bracket alone,
    whatever text stands before and after it: the replacement does not ask
    whether the comma is inside a string literal. *)
Theorem trailing_commas_removed_everywhere
  (a ws : jsstring) (b : codeunit) (rest : jsstring) :
  forallb isWhiteSpace ws = true -> isCloser b = true ->
  removeTrailingCommas (a ++ COMMA :: ws ++ b :: rest)
  = removeTrailingCommas a ++ b :: removeTrailingCommas rest.
Proof.
  intros Hws Hb.
  rewrite (@removeTrailingCommas_before_comma (length a)) by lia.
  rewrite removeTrailingCommas_cons, N.eqb_refl.
  now rewrite closerAfterSpaces_match.
Qed.

Lemma trailing_commas_removed_everywhere_witness :
  removeTrailingCommas (jsq "{'note':'a" ++ COMMA :: js " " ++ RBRACE :: jsq "'}")
  = removeTrailingCommas (jsq "{'note':'a") ++ RBRACE :: removeTrailingCommas (jsq "'}").
Proof.
  apply (@trailing_commas_removed_everywhere
           (jsq "{'note':'a") (js " ") RBRACE (jsq "'}")); reflexivity.
Defined.

(** The claim as stated fails: the comma and the space inside the string
    value of this valid JSON text are removed, and the text that goes to the
    parser holds another string. *)
Lemma comma_inside_string_removed :
  removeTrailingCommas (jsq "{'note':'a, }'}") = jsq "{'note':'a}'}"
  /\ JSON_parse (jsq "{'note':'a, }'}")
     = Parsed (JObject [(js "note", JString (js "a, }"))])
  /\ cleanJsonString (jsq "{'note':'a, }'}") = jsq "{'note':'a}'}"
  /\ JSON_parse (cleanJsonString (jsq "{'note':'a, }'}"))
     = Parsed (JObject [(js "note", JString (js "a}"))]).
Proof. repeat split; vm_compute; reflexivity. Qed.

End NormalizerFacts.

(** ** The validator *)

Section ValidatorFacts.

Lemma truthyOpt_field_object (d : JSValue) (key : jsstring) :
  truthyOpt (field d key) = true -> exists props, d = JObject props.
Proof. destruct d; simpl; try discriminate. intros _. now eexists. Qed.

Lemma isValidDraw_fields (d : JSValue) :
  isValidDraw d = true
  <-> truthyOpt (field d (js "game")) = true
      /\ truthyOpt (field d (js "date")) = true
      /\ isArray (field d (js "numbers")) = true.
Proof.
  unfold isValidDraw. rewrite !andb_true_iff. split.
  - intros [[[_ Hg] Hd] Hn]. auto.
  - intros (Hg & Hd & Hn). repeat split; auto.
    destruct (truthyOpt_field_object _ _ Hg) as [props ->]. reflexivity.
Qed.

(** C5.  The filter keeps an element exactly when it is not [null] and has
    a truthy [game], a truthy [date] and a [numbers] that is an array, empty
    or not; such an element is an object with these three properties.  The
    kept elements are the elements of the input that pass, in their order.
    Of the three records of the scenario only the first is kept. *)
Theorem validator_keeps_complete_records (d : JSValue) (items : list JSValue) :
  (isValidDraw d = true
   <-> d <> JNull
       /\ truthyOpt (field d (js "game")) = true
       /\ truthyOpt (field d (js "date")) = true
       /\ isArray (field d (js "numbers")) = true)
  /\ (isValidDraw d = true
      <-> exists props game date numbers,
            d = JObject props
            /\ lookup (js "game") props = Some game /\ truthy game = true
            /\ lookup (js "date") props = Some date /\ truthy date = true
            /\ lookup (js "numbers") props = Some (JArray numbers))
  /\ (In d (validDraws items) <-> In d items /\ isValidDraw d = true)
  /\ JSON_parse scenarioText
     = Parsed (JObject [(js "draws", JArray [record1; record2; record3])])
  /\ validDraws [record1; record2; record3] = [record1]
  /\ isValidDraw (JObject [(js "game", JString (js "Lotto"));
                           (js "date", JString (js "2026-02-01"));
                           (js "numbers", JArray [])]) = true.
Proof.
  split; [|split; [|split; [|repeat split; vm_compute; reflexivity]]].
  - rewrite isValidDraw_fields. split.
    + intros (Hg & Hd & Hn). repeat split; auto.
      destruct (truthyOpt_field_object _ _ Hg) as [props ->]. discriminate.
    + intros (_ & H). exact H.
  - rewrite isValidDraw_fields. split.
    + intros (Hg & Hd & Hn).
      destruct (truthyOpt_field_object _ _ Hg) as [props ->].
      cbn [field] in Hg, Hd, Hn.
      destruct (lookup (js "game") props) as [game|] eqn:Eg; [|discriminate].
      destruct (lookup (js "date") props) as [date|] eqn:Ed; [|discriminate].
      destruct (lookup (js "numbers") props) as [[| | | |numbers|]|] eqn:En;
        try discriminate.
      exists props, game, date, numbers. repeat split; auto.
    + intros (props & game & date & numbers & -> & Hg & Tg & Hd & Td & Hn).
      cbn [field]. rewrite Hg, Hd, Hn. simpl. auto.
  - unfold validDraws. apply filter_In.
Qed.

End ValidatorFacts.

(** ** The sort *)

Section SortGeneric.

Variable A : Type.
Variable comparefn : A -> A -> Completion TimeValue.

Lemma insertSorted_Permutation (x : A) (l l' : list A) :
  insertSorted comparefn x l = Normal l' -> Permutation (x :: l) l'.
Proof.
  revert l'. induction l as [|y l IH]; intros l'; simpl.
  - intros H; inversion H. apply Permutation_refl.
  - destruct (SortCompare comparefn x y) as [v|]; [|discriminate].
    destruct (v <=? 0)%Z.
    + intros H; inversion H. apply Permutation_refl.
    + destruct (insertSorted comparefn x l) as [l0|]; [|discriminate].
      intros H; inversion H; subst.
      eapply Permutation_trans; [apply perm_swap|].
      apply perm_skip. now apply IH.
Qed.

Lemma sort_Permutation (l out : list A) :
  sort comparefn l = Normal out -> Permutation l out.
Proof.
  revert out. induction l as [|x l IH]; intros out; simpl.
  - intros H; inversion H. apply Permutation_refl.
  - destruct (sort comparefn l) as [s|]; [|discriminate].
    intros H. apply insertSorted_Permutation in H.
    eapply Permutation_trans; [apply perm_skip, IH; reflexivity|exact H].
Qed.

(** An element that compares as [+0] with whatever it meets stays where it
    is put: in front. *)
Lemma insertSorted_zero (x : A) (l : list A) :
  Forall (fun y => SortCompare comparefn x y = Normal 0%Z) l ->
  insertSorted comparefn x l = Normal (x :: l).
Proof.
  intros H. destruct l as [|y l]; [reflexivity|].
  inversion H as [|? ? Hy _]; subst. simpl. now rewrite Hy.
Qed.

End SortGeneric.

Section SortFacts.

Variable host : HostDate.

Local Abbreviation parsable := (Validator.parsable host).
Local Abbreviation timeOf := (Validator.timeOf host).
Local Abbreviation sameTime := (Validator.sameTime host).
Local Abbreviation newerFirst := (Validator.newerFirst host).

Lemma timeOf_parsable (d : JSValue) (t : Z) :
  dateTime host d = Normal (Finite t) -> timeOf d = t.
Proof. unfold Validator.timeOf. now intros ->. Qed.

Lemma SortCompare_parsable (a b : JSValue) :
  parsable a -> parsable b ->
  SortCompare (byDateDescending host) a b = Normal (timeOf b - timeOf a)%Z.
Proof.
  intros [ta Ha] [tb Hb]. unfold SortCompare, byDateDescending.
  rewrite (timeOf_parsable _ Ha), (timeOf_parsable _ Hb), Ha, Hb. reflexivity.
Qed.

(** With parsable dates only, inserting is the textbook insertion on the
    time values. *)
Fixpoint insertByTime (x : JSValue) (sorted : list JSValue) : list JSValue :=
  match sorted with
  | [] => [x]
  | y :: rest =>
    if (timeOf y <=? timeOf x)%Z then x :: y :: rest
    else y :: insertByTime x rest
  end.

Lemma insertSorted_parsable (x : JSValue) (l : list JSValue) :
  parsable x -> Forall parsable l ->
  insertSorted (byDateDescending host) x l = Normal (insertByTime x l).
Proof.
  intros Hx. induction 1 as [|y l Hy Hl IH]; simpl; [reflexivity|].
  rewrite (SortCompare_parsable Hx Hy), IH.
  destruct (timeOf y <=? timeOf x)%Z eqn:E.
  - apply Z.leb_le in E. now replace (timeOf y - timeOf x <=? 0)%Z with true
      by (symmetry; apply Z.leb_le; lia).
  - apply Z.leb_gt in E. now replace (timeOf y - timeOf x <=? 0)%Z with false
      by (symmetry; apply Z.leb_gt; lia).
Qed.

Lemma insertByTime_Permutation (x : JSValue) (l : list JSValue) :
  Permutation (x :: l) (insertByTime x l).
Proof.
  induction l as [|y l IH]; simpl; [apply Permutation_refl|].
  destruct (timeOf y <=? timeOf x)%Z; [apply Permutation_refl|].
  eapply Permutation_trans; [apply perm_swap|]. now apply perm_skip.
Qed.

Lemma insertByTime_sorted (x : JSValue) (l : list JSValue) :
  StronglySorted newerFirst l -> StronglySorted newerFirst (insertByTime x l).
Proof.
  induction 1 as [|y l Hs IH Hy]; simpl; [repeat constructor|].
  destruct (timeOf y <=? timeOf x)%Z eqn:E.
  - apply Z.leb_le in E. constructor; [now constructor|].
    constructor; [exact E|].
    rewrite Forall_forall in *. intros z Hz. specialize (Hy z Hz).
    unfold Validator.newerFirst in *. lia.
  - apply Z.leb_gt in E. constructor; [exact IH|].
    apply (Permutation_Forall (insertByTime_Permutation x l)).
    constructor; [unfold Validator.newerFirst; lia|exact Hy].
Qed.

Lemma insertByTime_stable (t : Z) (x : JSValue) (l : list JSValue) :
  filter (sameTime t) (insertByTime x l) = filter (sameTime t) (x :: l).
Proof.
  induction l as [|y l IH]; [reflexivity|].
  cbn [insertByTime]. destruct (timeOf y <=? timeOf x)%Z eqn:E; [reflexivity|].
  apply Z.leb_gt in E. cbn [filter] in *. rewrite IH. unfold Validator.sameTime.
  destruct (timeOf y =? t)%Z eqn:Ey, (timeOf x =? t)%Z eqn:Ex; try reflexivity.
  apply Z.eqb_eq in Ey, Ex. lia.
Qed.

(** The head of a list sorted by date has the latest date. *)
Lemma sorted_head_latest (x z : JSValue) (l : list JSValue) :
  StronglySorted newerFirst (x :: l) -> In z (x :: l) -> (timeOf z <= timeOf x)%Z.
Proof.
  intros Hs [<- | Hz]; [lia|].
  inversion Hs as [|? ? _ Hx]; subst.
  rewrite Forall_forall in Hx. exact (Hx z Hz).
Qed.

Lemma head_time_bound (x : JSValue) (l1 l2 : list JSValue) :
  StronglySorted newerFirst l2 ->
  filter (sameTime (timeOf x)) (x :: l1) = filter (sameTime (timeOf x)) l2 ->
  exists y r, l2 = y :: r /\ (timeOf x <= timeOf y)%Z.
Proof.
  intros Hs Hf. cbn [filter] in Hf. unfold Validator.sameTime in Hf at 1.
  rewrite Z.eqb_refl in Hf.
  assert (Hin : In x (filter (sameTime (timeOf x)) l2)) by (rewrite <- Hf; now left).
  apply filter_In in Hin. destruct Hin as [Hin Ht].
  destruct l2 as [|y r]; [contradiction|].
  exists y, r. split; [reflexivity|].
  now apply (@sorted_head_latest y x r Hs).
Qed.

(** There is one way to arrange records by date descending while keeping
    the records of each date in their order: whatever stable sort the engine
    runs, it returns the list of the model. *)
Lemma stable_sorted_unique (l1 : list JSValue) :
  forall l2,
  StronglySorted newerFirst l1 -> StronglySorted newerFirst l2 ->
  (forall t, filter (sameTime t) l1 = filter (sameTime t) l2) ->
  l1 = l2.
Proof.
  induction l1 as [|x r1 IH]; intros l2 H1 H2 Hf.
  - destruct l2 as [|y r2]; [reflexivity|].
    specialize (Hf (timeOf y)). cbn [filter] in Hf.
    unfold Validator.sameTime in Hf at 1. rewrite Z.eqb_refl in Hf. discriminate Hf.
  - destruct (@head_time_bound x r1 l2 H2 (Hf (timeOf x))) as (y & r2 & -> & Hxy).
    destruct (@head_time_bound y r2 (x :: r1) H1 (eq_sym (Hf (timeOf y))))
      as (x' & r1' & E & Hyx).
    inversion E; subst x' r1'.
    assert (Et : timeOf y = timeOf x) by lia.
    pose proof (Hf (timeOf x)) as Hh. cbn [filter] in Hh.
    assert (Ex : sameTime (timeOf x) x = true)
      by (unfold Validator.sameTime; apply Z.eqb_refl).
    assert (Ey : sameTime (timeOf x) y = true)
      by (unfold Validator.sameTime; rewrite Et; apply Z.eqb_refl).
    rewrite Ex, Ey in Hh. inversion Hh; subst y. f_equal.
    apply IH; [now inversion H1 | now inversion H2 |].
    intros t. specialize (Hf t). cbn [filter] in Hf.
    destruct (sameTime t x); [now inversion Hf | exact Hf].
Qed.

Lemma sort_parsable (ds : list JSValue) :
  Forall parsable ds ->
  exists out,
    sortDraws host ds = Normal out
    /\ Permutation ds out
    /\ StronglySorted newerFirst out
    /\ forall t, filter (sameTime t) out = filter (sameTime t) ds.
Proof.
  unfold sortDraws.
  induction 1 as [|x l Hx Hl (out & Hs & Hp & Ho & Hst)]; simpl.
  - exists []. repeat split; constructor.
  - rewrite Hs, insertSorted_parsable.
    + exists (insertByTime x out). split; [reflexivity|]. split; [|split].
      * eapply Permutation_trans; [apply perm_skip, Hp|].
        apply insertByTime_Permutation.
      * now apply insertByTime_sorted.
      * intros t. rewrite insertByTime_stable. cbn [filter]. now rewrite Hst.
    + exact Hx.
    + apply (Permutation_Forall Hp Hl).
Qed.

End SortFacts.

(** C6.  When every kept record has a parsable date the sort returns the
    records (a permutation) with the times of their dates descending, and
    the records of any one date in the order they had; no other arrangement
    of the records has these two properties, so every stable sort returns
    this one.  The dates 2026-01-01, 2026-02-15, 2026-01-20 come out as
    2026-02-15, 2026-01-20, 2026-01-01, and two records of one date keep
    their order. *)
Theorem sorted_by_date_descending (host : HostDate) (ds : list JSValue) :
  Forall (parsable host) ds ->
  (exists out,
     sortDraws host ds = Normal out
     /\ Permutation ds out
     /\ StronglySorted (newerFirst host) out
     /\ (forall t, filter (sameTime host t) out = filter (sameTime host t) ds)
     /\ (forall other,
          StronglySorted (newerFirst host) other ->
          (forall t, filter (sameTime host t) other = filter (sameTime host t) ds) ->
          other = out))
  /\ sortDraws host
       [draw "a" "2026-01-01"; draw "b" "2026-02-15"; draw "c" "2026-01-20"]
     = Normal [draw "b" "2026-02-15"; draw "c" "2026-01-20"; draw "a" "2026-01-01"]
  /\ sortDraws host
       [draw "a" "2026-01-20"; draw "b" "2026-02-15"; draw "c" "2026-01-20"]
     = Normal [draw "b" "2026-02-15"; draw "a" "2026-01-20"; draw "c" "2026-01-20"].
Proof.
  intros H. split; [|split; vm_compute; reflexivity].
  destruct (sort_parsable H) as (out & Hs & Hp & Ho & Hst).
  exists out. repeat (split; [assumption|]).
  intros other Hso Hsto. apply (stable_sorted_unique Hso Ho).
  intros t. now rewrite Hsto, Hst.
Qed.

Lemma sorted_by_date_descending_witness :
  (exists out,
     sortDraws strictHost
       [draw "a" "2026-01-20"; draw "b" "2026-02-15"; draw "c" "2026-01-20"]
     = Normal out
     /\ Permutation
          [draw "a" "2026-01-20"; draw "b" "2026-02-15"; draw "c" "2026-01-20"] out
     /\ StronglySorted (newerFirst strictHost) out
     /\ (forall t,
          filter (sameTime strictHost t) out
          = filter (sameTime strictHost t)
              [draw "a" "2026-01-20"; draw "b" "2026-02-15"; draw "c" "2026-01-20"])
     /\ (forall other,
          StronglySorted (newerFirst strictHost) other ->
          (forall t,
             filter (sameTime strictHost t) other
             = filter (sameTime strictHost t)
                 [draw "a" "2026-01-20"; draw "b" "2026-02-15"; draw "c" "2026-01-20"]) ->
          other = out))
  /\ sortDraws strictHost
       [draw "a" "2026-01-01"; draw "b" "2026-02-15"; draw "c" "2026-01-20"]
     = Normal [draw "b" "2026-02-15"; draw "c" "2026-01-20"; draw "a" "2026-01-01"]
  /\ sortDraws strictHost
       [draw "a" "2026-01-20"; draw "b" "2026-02-15"; draw "c" "2026-01-20"]
     = Normal [draw "b" "2026-02-15"; draw "a" "2026-01-20"; draw "c" "2026-01-20"].
Proof.
  apply (@sorted_by_date_descending strictHost
           [draw "a" "2026-01-20"; draw "b" "2026-02-15"; draw "c" "2026-01-20"]).
  repeat constructor; eexists; vm_compute; reflexivity.
Defined.

(** The time values of the dates used in the examples.  A text that is no
    calendar date in the standard form is the engine's to read. *)
Example date_time_values (host : HostDate) :
  dateTime host (draw "a" "2026-02-01") = Normal (Finite 1769904000000)
  /\ dateTime host (draw "a" "1970-01-01") = Normal (Finite 0)
  /\ dateTime host (draw "a" "2024-02-29") = Normal (Finite 1709164800000)
  /\ dateTime host (draw "a" "2026-13-45") = host (JString (js "2026-13-45"))
  /\ dateTime host (draw "a" "2026-02-30") = host (JString (js "2026-02-30"))
  /\ dateTime host (draw "a" "TBD") = host (JString (js "TBD")).
Proof. repeat split; vm_compute; reflexivity. Qed.





(** ** The pipeline *)

Section PipelineFacts.

Variable host : HostDate.

(** Whenever [errorDetail] is set, [draws] is empty. *)
Lemma errorDetail_without_draws (apiKey : option jsstring) (upstream : Upstream) :
  errorDetail (generateLotteryData host apiKey upstream) <> None ->
  draws (generateLotteryData host apiKey upstream) = [].
Proof.
  unfold generateLotteryData, parseAndValidate.
  destruct apiKey as [[|k key]|]; try reflexivity.
  destruct upstream as [message|response]; [reflexivity|].
  destruct (JSON_parse _) as [data| |]; try reflexivity.
  destruct (getProp data (js "draws")) as [[[| | | |items|]|]|]; try reflexivity.
  destruct (sortDraws host (validDraws items)); [|reflexivity].
  simpl. intros H. now contradiction H.
Qed.

(** X9.  With a key and a response whose text is not empty, the result has
    no [errorDetail] exactly when the cleaned text parses, to a value that
    is not [null], and the sort of the valid entries of its [draws] array,
    if it has one, does not throw. *)
Lemma errorDetail_of_response
  (k : codeunit) (key : jsstring) (c : codeunit) (t : jsstring)
  (chunks : option (list Chunk)) :
  errorDetail (generateLotteryData host (Some (k :: key))
                 (Fulfilled (mkResponse (Some (c :: t)) chunks))) = None
  <-> exists data,
        JSON_parse (cleanJsonString (c :: t)) = Parsed data
        /\ data <> JNull
        /\ forall items, getProp data (js "draws") = Normal (Some (JArray items)) ->
                         sortDraws host (validDraws items) <> Throw.
Proof.
  unfold generateLotteryData, parseAndValidate. cbn [text groundingChunks].
  assert (Hno : forall data,
             (forall items, getProp data (js "draws") <> Normal (Some (JArray items))) ->
             data <> JNull ->
             exists data',
               Parsed data = Parsed data' /\ data' <> JNull
               /\ forall items,
                    getProp data' (js "draws") = Normal (Some (JArray items)) ->
                    sortDraws host (validDraws items) <> Throw).
  { intros data Hd Hn. exists data. split; [reflexivity|]. split; [exact Hn|].
    intros items H. now contradiction (Hd items). }
  destruct (JSON_parse (cleanJsonString (c :: t))) as [data| |].
  - destruct data as [|b|d|s|items|props]; cbn [getProp].
    + split; [discriminate|]. intros (data & H & Hn & _).
      inversion H; subst. now contradiction Hn.
    + split; [|reflexivity]. intros _. apply Hno; [intros items|]; discriminate.
    + split; [|reflexivity]. intros _. apply Hno; [intros items|]; discriminate.
    + split; [|reflexivity]. intros _. apply Hno; [intros items|]; discriminate.
    + split; [|reflexivity]. intros _. apply Hno; [intros items'|]; discriminate.
    + destruct (lookup (js "draws") props) as [[| | | |items|]|] eqn:E;
        try (split; [|reflexivity]; intros _; apply Hno;
             [intros items'; cbn [getProp]; rewrite E|]; discriminate).
      destruct (sortDraws host (validDraws items)) eqn:Es.
      * split; [|reflexivity]. intros _. eexists.
        split; [reflexivity|]. split; [discriminate|].
        intros items' H. cbn [getProp] in H. rewrite E in H.
        inversion H; subst. rewrite Es. discriminate.
      * split; [discriminate|]. intros (data & H & _ & Hs).
        inversion H; subst. exfalso. apply (Hs items); [|exact Es].
        cbn [getProp]. now rewrite E.
  - split; [discriminate|]. intros (data & H & _). discriminate H.
  - split; [discriminate|]. intros (data & H & _). discriminate H.
Qed.

End PipelineFacts.

(** C9.  With a key, when the call resolves to an empty text, or to no text
    at all, the pipeline returns no draws, the sources of the response and
    no [errorDetail]: the text that goes to the repair and validate stage is
    the default document, which parses. *)
Theorem empty_text_gives_no_draws
  (host : HostDate) (k : codeunit) (key : jsstring) (chunks : option (list Chunk)) :
  generateLotteryData host (Some (k :: key)) (Fulfilled (mkResponse (Some []) chunks))
  = {| draws := []; sources := sourcesOf chunks; errorDetail := None |}
  /\ generateLotteryData host (Some (k :: key)) (Fulfilled (mkResponse None chunks))
     = {| draws := []; sources := sourcesOf chunks; errorDetail := None |}
  /\ cleanJsonString (jsq "{'draws': []}") = jsq "{'draws': []}"
  /\ JSON_parse (jsq "{'draws': []}") = Parsed (JObject [(js "draws", JArray [])]).
Proof.
  assert (Hc : cleanJsonString (jsq "{'draws': []}") = jsq "{'draws': []}")
    by (vm_compute; reflexivity).
  assert (Hp : JSON_parse (jsq "{'draws': []}") = Parsed (JObject [(js "draws", JArray [])]))
    by (vm_compute; reflexivity).
  repeat split; try assumption;
    unfold generateLotteryData, parseAndValidate; cbn [text groundingChunks];
    rewrite Hc, Hp; reflexivity.
Qed.

(** C4, at the input where the code departs from it.  The payload [null] is
    valid JSON and needs no repair, yet reading [draws] off the parsed
    [null] throws inside the [try] of the parse, and the result carries the
    [errorDetail] of an interrupted stream.  The other payloads without a
    [draws] array (here a number, an array and an object without the key)
    give no draws and no [errorDetail]. *)
Theorem null_payload_reported_as_parse_failure
  (host : HostDate) (k : codeunit) (key : jsstring) (chunks : option (list Chunk)) :
  cleanJsonString (js "null") = js "null"
  /\ JSON_parse (js "null") = Parsed JNull
  /\ generateLotteryData host (Some (k :: key))
       (Fulfilled (mkResponse (Some (js "null")) chunks))
     = {| draws := []; sources := sourcesOf chunks;
          errorDetail :=
            Some (js "Data stream was interrupted. Try a smaller date range.") |}
  /\ generateLotteryData host (Some (k :: key))
       (Fulfilled (mkResponse (Some (js "0")) chunks))
     = {| draws := []; sources := sourcesOf chunks; errorDetail := None |}
  /\ generateLotteryData host (Some (k :: key))
       (Fulfilled (mkResponse (Some (js "[]")) chunks))
     = {| draws := []; sources := sourcesOf chunks; errorDetail := None |}
  /\ generateLotteryData host (Some (k :: key))
       (Fulfilled (mkResponse (Some (js "{}")) chunks))
     = {| draws := []; sources := sourcesOf chunks; errorDetail := None |}.
Proof.
  assert (H1 : cleanJsonString (js "null") = js "null") by (vm_compute; reflexivity).
  assert (H2 : cleanJsonString (js "0") = js "0") by (vm_compute; reflexivity).
  assert (H3 : cleanJsonString (js "[]") = js "[]") by (vm_compute; reflexivity).
  assert (H4 : cleanJsonString (js "{}") = js "{}") by (vm_compute; reflexivity).
  split; [exact H1|]. split; [vm_compute; reflexivity|].
  unfold generateLotteryData, parseAndValidate; cbn [text groundingChunks].
  change (match js "null" with [] => jsq "{'draws': []}" | c :: t => c :: t end)
    with (js "null").
  change (match js "0" with [] => jsq "{'draws': []}" | c :: t => c :: t end)
    with (js "0").
  change (match js "[]" with [] => jsq "{'draws': []}" | c :: t => c :: t end)
    with (js "[]").
  change (match js "{}" with [] => jsq "{'draws': []}" | c :: t => c :: t end)
    with (js "{}").
  rewrite H1, H2, H3, H4.
  repeat split; reflexivity.
Qed.

(** The end-to-end scenario of the specification: the stream is cut inside
    the [numbers] array of the first record.  The repair closes the four open
    containers, the text parses, and the record is kept with the two numbers
    that arrived. *)
Example truncated_stream_is_recovered
  (host : HostDate) (k : codeunit) (key : jsstring) :
  generateLotteryData host (Some (k :: key))
    (Fulfilled (mkResponse
       (Some (jsq "{'draws':[{'id':'1','game':'Lotto','date':'2026-02-01','numbers':[1,2"))
       None))
  = {| draws := [JObject [(js "id", JString (js "1"));
                          (js "game", JString (js "Lotto"));
                          (js "date", JString (js "2026-02-01"));
                          (js "numbers", JArray [num 1; num 2])]];
       sources := [];
       errorDetail := None |}.
Proof. vm_compute. reflexivity. Qed.

(** * Further properties *)

(** ** The repair: what it appends and when it balances *)

Section RepairBalance.

Definition closer (c : codeunit) : Prop := isCloser c = true.

Lemma closer_cases (c : codeunit) : closer c -> c = RBRACE \/ c = RBRACKET.
Proof.
  unfold closer, isCloser. intros H. apply orb_true_iff in H.
  destruct H as [H|H]; apply N.eqb_eq in H; auto.
Qed.

(** The stack only ever holds closers, and no more of them than openers
    were read. *)
Lemma scanStep_stack_closers (st : ScanState) (c : codeunit) :
  Forall closer (stack st) -> Forall closer (stack (scanStep st c)).
Proof.
  intros H. unfold scanStep; cbn [stack].
  destruct (negb _); [|exact H].
  destruct (N.eqb c LBRACE || N.eqb c LBRACKET).
  - constructor; [|exact H]. destruct (N.eqb c LBRACE); reflexivity.
  - destruct (N.eqb c RBRACE || N.eqb c RBRACKET); [|exact H].
    destruct (stack st) as [|top rest]; [exact H|].
    destruct (N.eqb top c); [now inversion H | exact H].
Qed.

Lemma scanStep_stack_length (st : ScanState) (c : codeunit) :
  length (stack (scanStep st c))
  <= length (stack st) + (if isOpener c then 1 else 0).
Proof.
  unfold scanStep, isOpener; cbn [stack].
  destruct (negb _); [|lia].
  destruct (N.eqb c LBRACE || N.eqb c LBRACKET); [simpl; lia|].
  destruct (N.eqb c RBRACE || N.eqb c RBRACKET); [|lia].
  destruct (stack st) as [|top rest]; [lia|].
  destruct (N.eqb top c); simpl; lia.
Qed.

Lemma scanFrom_stack (json : jsstring) :
  forall st, Forall closer (stack st) ->
  Forall closer (stack (scanFrom st json))
  /\ length (stack (scanFrom st json))
     <= length (stack st) + length (List.filter isOpener json).
Proof.
  induction json as [|c json IH]; intros st H; [simpl; split; [exact H|lia]|].
  rewrite scanFrom_cons.
  destruct (IH (scanStep st c) (@scanStep_stack_closers st c H)) as [Hc Hl].
  split; [exact Hc|].
  pose proof (scanStep_stack_length st c). cbn [List.filter].
  destruct (isOpener c); simpl in *; lia.
Qed.

(** Outside a string, the closers of the stack pop the stack. *)
Lemma scan_pops_closers (stk : list codeunit) :
  Forall closer stk ->
  forall e tl, stk <> [] ->
  scanFrom (mkScan false e (stk ++ tl)) stk = mkScan false false tl.
Proof.
  induction 1 as [|c stk Hc Hs IH]; intros e tl Hne; [contradiction|].
  rewrite scanFrom_cons.
  assert (Hstep : scanStep (mkScan false e ((c :: stk) ++ tl)) c
                  = mkScan false false (stk ++ tl)).
  { destruct (@closer_cases c Hc) as [-> | ->]; destruct e; reflexivity. }
  rewrite Hstep. destruct stk as [|c' stk']; [reflexivity|].
  apply IH. discriminate.
Qed.

(** Inside a string they are read as text. *)
Lemma scan_ignores_closers_in_string (stk s0 : list codeunit) :
  Forall closer stk ->
  scanFrom (mkScan true false s0) stk = mkScan true false s0.
Proof.
  induction 1 as [|c stk Hc Hs IH]; [reflexivity|].
  rewrite scanFrom_cons, scanStep_in_string; [exact IH| |];
    destruct (@closer_cases c Hc) as [-> | ->]; reflexivity.
Qed.

Lemma scan_state_eta (st : ScanState) :
  st = mkScan (isInsideString st) (escaped st) (stack st).
Proof. now destruct st. Qed.

Lemma scan_of_repaired (json : jsstring) :
  scan (fixTruncatedJson json)
  = scanFrom (scan json)
      ((if isInsideString (scan json) then [QUOTE] else []) ++ stack (scan json)).
Proof.
  rewrite fixTruncatedJson_eq. unfold scan at 1, appendedTerminators.
  now rewrite scanFrom_app.
Qed.

Lemma repaired_state (json : jsstring) :
  scan (fixTruncatedJson json)
  = if isInsideString (scan json) && escaped (scan json)
    then mkScan true false (stack (scan json))
    else mkScan false
           (match stack (scan json) with
            | [] => negb (isInsideString (scan json)) && escaped (scan json)
            | _ :: _ => false
            end) [].
Proof.
  pose proof (proj1 (@scanFrom_stack json initial (Forall_nil _))) as Hall.
  fold (scan json) in Hall. rewrite scan_of_repaired.
  destruct (scan json) as [inside esc stk]; cbn [isInsideString escaped stack] in *.
  destruct stk as [|c stk]; [destruct inside, esc; reflexivity|].
  destruct inside, esc; cbn [andb negb app].
  - rewrite scanFrom_cons, scanStep_escaped_quote.
    now apply scan_ignores_closers_in_string.
  - rewrite scanFrom_cons, scanStep_quote. cbn [negb].
    rewrite <- (app_nil_r (c :: stk)) at 1.
    apply scan_pops_closers; [exact Hall|discriminate].
  - rewrite <- (app_nil_r (c :: stk)) at 1.
    apply scan_pops_closers; [exact Hall|discriminate].
  - rewrite <- (app_nil_r (c :: stk)) at 1.
    apply scan_pops_closers; [exact Hall|discriminate].
Qed.

End RepairBalance.

(** X1.  The repaired text is balanced for the scan itself (it ends outside
    a string with an empty stack) for every input but one kind: when the
    input ends inside a string right after an unescaped backslash, the quote
    that is appended is read as escaped, the string stays open and the
    appended closers are read as part of it. *)
Theorem repair_balances_unless_trailing_backslash (json : jsstring) :
  (if isInsideString (scan json) && escaped (scan json)
   then isInsideString (scan (fixTruncatedJson json)) = true
        /\ stack (scan (fixTruncatedJson json)) = stack (scan json)
   else isInsideString (scan (fixTruncatedJson json)) = false
        /\ stack (scan (fixTruncatedJson json)) = [])
  /\ fixTruncatedJson (jsq "['a\") = jsq "['a\']"
  /\ isInsideString (scan (jsq "['a\']")) = true.
Proof.
  split; [|split; vm_compute; reflexivity].
  rewrite repaired_state.
  destruct (isInsideString (scan json) && escaped (scan json)); split; reflexivity.
Qed.

(** X2.  Repairing twice is repairing once, exactly for the inputs that do
    not end inside a string after an unescaped backslash; for those that
    do, every further repair appends again. *)
Theorem repair_idempotent_iff (json : jsstring) :
  fixTruncatedJson (fixTruncatedJson json) = fixTruncatedJson json
  <-> isInsideString (scan json) && escaped (scan json) = false.
Proof.
  pose proof (repaired_state json) as Hst. split.
  - intros H. destruct (isInsideString (scan json) && escaped (scan json)); [|reflexivity].
    rewrite (fixTruncatedJson_eq (fixTruncatedJson json)), Hst in H.
    cbn [isInsideString] in H.
    rewrite <- (app_nil_r (fixTruncatedJson json)) in H at 3.
    apply app_inv_head in H. discriminate H.
  - intros H. rewrite H in Hst.
    apply fixTruncatedJson_balanced; rewrite Hst; reflexivity.
Qed.

(** X3.  What the repair appends after the optional quote are closing
    braces and brackets only, and never more of them than the input has
    opening ones. *)
Theorem repair_appends_closers_only (json : jsstring) :
  Forall (fun c => isCloser c = true) (appendedTerminators json)
  /\ length (appendedTerminators json) <= length (List.filter isOpener json).
Proof.
  destruct (@scanFrom_stack json initial (Forall_nil _)) as [Hc Hl].
  split; [exact Hc | exact Hl].
Qed.

(** ** The normalizer: whitespace, fences and commas *)

Section NormalizerMore.

Lemma trimStart_spaces (w s : jsstring) :
  forallb isWhiteSpace w = true -> trimStart (w ++ s) = trimStart s.
Proof.
  induction w as [|c w IH]; simpl; [reflexivity|].
  intros H. apply andb_true_iff in H. destruct H as [Hc Hw]. rewrite Hc. auto.
Qed.

Lemma trimStart_all_spaces (s : jsstring) :
  trimStart s = [] -> forallb isWhiteSpace s = true.
Proof.
  induction s as [|c s IH]; simpl; [reflexivity|].
  destruct (isWhiteSpace c); [exact IH|discriminate].
Qed.

Lemma trimStart_app (s w : jsstring) :
  trimStart s <> [] -> trimStart (s ++ w) = trimStart s ++ w.
Proof.
  induction s as [|c s IH]; simpl; [contradiction|].
  destruct (isWhiteSpace c); [exact IH|reflexivity].
Qed.

Lemma forallb_rev_spaces (w : jsstring) :
  forallb isWhiteSpace w = true -> forallb isWhiteSpace (rev w) = true.
Proof.
  rewrite !forallb_forall. intros H c Hc. apply H. now apply in_rev.
Qed.

Lemma trimEnd_spaces (s w : jsstring) :
  forallb isWhiteSpace w = true -> trimEnd (s ++ w) = trimEnd s.
Proof.
  intros H. unfold trimEnd. rewrite rev_app_distr, trimStart_spaces; auto.
  now apply forallb_rev_spaces.
Qed.

Lemma trim_padding (w1 s w2 : jsstring) :
  forallb isWhiteSpace w1 = true -> forallb isWhiteSpace w2 = true ->
  trim (w1 ++ s ++ w2) = trim s.
Proof.
  intros H1 H2. unfold trim. rewrite trimStart_spaces by assumption.
  destruct (trimStart s) as [|c t] eqn:E.
  - assert (Hall : trimStart (s ++ w2) = []).
    { rewrite <- (app_nil_r (s ++ w2)).
      apply (@trimStart_spaces (s ++ w2) []).
      rewrite forallb_app, (trimStart_all_spaces _ E). exact H2. }
    now rewrite Hall.
  - rewrite trimStart_app by (rewrite E; discriminate).
    rewrite E. now apply trimEnd_spaces.
Qed.

Lemma trimStart_start (s : jsstring) (c : codeunit) (t : jsstring) :
  trimStart s = c :: t -> isWhiteSpace c = false.
Proof.
  induction s as [|x s IH]; simpl; [discriminate|].
  destruct (isWhiteSpace x) eqn:E; [exact IH|].
  intros H; inversion H; subst. exact E.
Qed.

Lemma trimStart_fixed (c : codeunit) (t : jsstring) :
  isWhiteSpace c = false -> trimStart (c :: t) = c :: t.
Proof. intros H. simpl. now rewrite H. Qed.

(** A text that neither starts nor ends with whitespace is its own trim. *)
Lemma trim_fixed (c : codeunit) (body : jsstring) (d : codeunit) :
  isWhiteSpace c = false -> isWhiteSpace d = false ->
  trim (c :: body ++ [d]) = c :: body ++ [d].
Proof.
  intros Hc Hd. unfold trim, trimEnd. rewrite trimStart_fixed by assumption.
  assert (Hr : rev (c :: body ++ [d]) = d :: rev body ++ [c]).
  { simpl. rewrite rev_app_distr. reflexivity. }
  rewrite Hr, trimStart_fixed by assumption.
  rewrite <- Hr. apply rev_involutive.
Qed.

End NormalizerMore.

(** X4.  The trial parse of [cleanJsonString] never changes its result: for
    every input the function returns the repair of the normalized text,
    because the repair leaves a text that parses as it is. *)
Theorem clean_is_repair_of_normalized (str : jsstring) :
  cleanJsonString str = fixTruncatedJson (normalize str).
Proof.
  unfold cleanJsonString.
  destruct (JSON_parse (normalize str)) as [v| |] eqn:E; try reflexivity.
  symmetry. exact (fixTruncatedJson_parsed _ E).
Qed.

(** X5.  Whitespace around the payload does not matter: the cleaned text of
    a padded input is the cleaned text of the input. *)
Theorem clean_ignores_padding (w1 s w2 : jsstring) :
  forallb isWhiteSpace w1 = true -> forallb isWhiteSpace w2 = true ->
  trim (w1 ++ s ++ w2) = trim s
  /\ cleanJsonString (w1 ++ s ++ w2) = cleanJsonString s.
Proof.
  intros H1 H2. pose proof (@trim_padding w1 s w2 H1 H2) as Ht.
  split; [exact Ht|].
  unfold cleanJsonString, normalize, stripFences. now rewrite Ht.
Qed.

Lemma clean_ignores_padding_witness :
  trim (js "  " ++ jsq "{'draws': []}" ++ [NEWLINE]) = trim (jsq "{'draws': []}")
  /\ cleanJsonString (js "  " ++ jsq "{'draws': []}" ++ [NEWLINE])
     = cleanJsonString (jsq "{'draws': []}").
Proof.
  apply (@clean_ignores_padding (js "  ") (jsq "{'draws': []}") [NEWLINE]);
    reflexivity.
Defined.

Section CommasAndFences.






Lemma closingFenceHere_short (s : jsstring) :
  closingFenceHere s = true -> length s <= 4.
Proof.
  unfold closingFenceHere. intros H. apply orb_true_iff in H.
  destruct H as [H|H]; apply jsstring_eqb_eq in H; subst; simpl; lia.
Qed.

Lemma stripClosingFence_appended (body : jsstring) :
  stripClosingFence (body ++ NEWLINE :: FENCE) = body.
Proof.
  induction body as [|c body IH]; [reflexivity|].
  rewrite <- app_comm_cons. cbn [stripClosingFence].
  destruct (closingFenceHere (c :: body ++ NEWLINE :: FENCE)) eqn:E.
  - apply closingFenceHere_short in E. simpl in E. rewrite length_app in E.
    simpl in E. lia.
  - now rewrite IH.
Qed.

Lemma fenced_shape (mid body : jsstring) :
  FENCE ++ mid ++ body ++ [NEWLINE] ++ FENCE
  = BACKTICK :: ([BACKTICK; BACKTICK] ++ mid ++ body ++ [NEWLINE; BACKTICK; BACKTICK])
      ++ [BACKTICK].
Proof.
  unfold FENCE. cbn [app]. do 3 f_equal. rewrite <- !app_assoc. reflexivity.
Qed.

Lemma fenced_trim (mid body : jsstring) :
  trim (FENCE ++ mid ++ body ++ [NEWLINE] ++ FENCE)
  = FENCE ++ mid ++ body ++ [NEWLINE] ++ FENCE.
Proof. rewrite fenced_shape. apply trim_fixed; reflexivity. Qed.

End CommasAndFences.


(** X7.  Fencing is undone: a body wrapped as a fenced block, with or
    without the tag [json], a line feed after the opening fence and one
    before the closing fence, comes out of the fence step as the body,
    whatever the body is; the cleaned text is then the repair of the body
    after the comma step. *)
Theorem fenced_body_is_recovered (body : jsstring) :
  stripFences (FENCE ++ js "json" ++ [NEWLINE] ++ body ++ [NEWLINE] ++ FENCE) = body
  /\ stripFences (FENCE ++ [NEWLINE] ++ body ++ [NEWLINE] ++ FENCE) = body
  /\ cleanJsonString (FENCE ++ js "json" ++ [NEWLINE] ++ body ++ [NEWLINE] ++ FENCE)
     = fixTruncatedJson (removeTrailingCommas body).
Proof.
  assert (H1 : stripFences (FENCE ++ js "json" ++ [NEWLINE] ++ body ++ [NEWLINE] ++ FENCE)
               = body).
  { unfold stripFences.
    rewrite (app_assoc (js "json") [NEWLINE]), fenced_trim.
    change (stripClosingFence (body ++ NEWLINE :: FENCE) = body).
    apply stripClosingFence_appended. }
  split; [exact H1|]. split.
  - unfold stripFences. rewrite fenced_trim.
    change (stripClosingFence (body ++ NEWLINE :: FENCE) = body).
    apply stripClosingFence_appended.
  - rewrite cleanJsonString_repairs. unfold normalize. now rewrite H1.
Qed.

(** ** The pipeline: what a result can hold *)

Section PipelineMore.

Variable host : HostDate.

Lemma generate_fulfilled (k : codeunit) (key : jsstring) (c : codeunit) (t : jsstring)
  (chunks : option (list Chunk)) :
  generateLotteryData host (Some (k :: key)) (Fulfilled (mkResponse (Some (c :: t)) chunks))
  = parseAndValidate host (cleanJsonString (c :: t)) (sourcesOf chunks).
Proof. reflexivity. Qed.

Lemma parseAndValidate_array (cleaned : jsstring) (srcs : list Source)
  (data : JSValue) (items : list JSValue) :
  JSON_parse cleaned = Parsed data ->
  getProp data (js "draws") = Normal (Some (JArray items)) ->
  parseAndValidate host cleaned srcs
  = match sortDraws host (validDraws items) with
    | Normal sorted => {| draws := sorted; sources := srcs; errorDetail := None |}
    | Throw => parseFailure srcs
    end.
Proof. intros Hp Hd. unfold parseAndValidate. now rewrite Hp, Hd. Qed.

Lemma parseAndValidate_valid (cleaned : jsstring) (srcs : list Source) :
  Forall (fun d => isValidDraw d = true) (draws (parseAndValidate host cleaned srcs)).
Proof.
  unfold parseAndValidate.
  destruct (JSON_parse cleaned) as [data| |]; try constructor.
  destruct (getProp data (js "draws")) as [[[| | | |items|]|]|]; try constructor.
  destruct (sortDraws host (validDraws items)) as [sorted|] eqn:E; [|constructor].
  cbn [draws]. apply (Permutation_Forall (sort_Permutation _ _ E)).
  unfold validDraws. rewrite Forall_forall. intros d Hd.
  now apply filter_In in Hd.
Qed.

Lemma parseAndValidate_sources (cleaned : jsstring) (srcs : list Source) :
  sources (parseAndValidate host cleaned srcs) = srcs.
Proof.
  unfold parseAndValidate.
  destruct (JSON_parse cleaned) as [data| |]; try reflexivity.
  destruct (getProp data (js "draws")) as [[[| | | |items|]|]|]; try reflexivity.
  destruct (sortDraws host (validDraws items)); reflexivity.
Qed.

Lemma filter_filter_andb {A} (f g : A -> bool) (l : list A) :
  List.filter g (List.filter f l) = List.filter (fun x => f x && g x) l.
Proof.
  induction l as [|x l IH]; simpl; [reflexivity|].
  destruct (f x); simpl; [destruct (g x); [now f_equal | exact IH] | exact IH].
Qed.

(** The payload of the ordering example, cleaned and parsed. *)
Lemma orderText_parsed :
  JSON_parse (cleanJsonString orderText)
  = Parsed (JObject [(js "draws", JArray orderItems)]).
Proof. vm_compute. reflexivity. Qed.

Lemma orderText_result (srcs : list Source) :
  parseAndValidate host (cleanJsonString orderText) srcs
  = {| draws := [draw "b" "2026-02-15"; draw "a" "2026-01-20"; draw "c" "2026-01-20"];
       sources := srcs;
       errorDetail := None |}.
Proof.
  unfold parseAndValidate. rewrite orderText_parsed.
  cbn [getProp].
  change (lookup (js "draws") [(js "draws", JArray orderItems)])
    with (Some (JArray orderItems)).
  cbv iota.
  replace (sortDraws host (validDraws orderItems))
    with (Normal [draw "b" "2026-02-15"; draw "a" "2026-01-20"; draw "c" "2026-01-20"]);
    [reflexivity|].
  vm_compute. reflexivity.
Qed.

End PipelineMore.

(** X8.  A result that carries an [errorDetail] carries no draws, whatever
    the key, the outcome of the call and the payload. *)
Theorem error_results_carry_no_draws
  (host : HostDate) (apiKey : option jsstring) (upstream : Upstream) (msg : jsstring) :
  errorDetail (generateLotteryData host apiKey upstream) = Some msg ->
  draws (generateLotteryData host apiKey upstream) = [].
Proof.
  intros H. apply errorDetail_without_draws. rewrite H. discriminate.
Qed.

Lemma error_results_carry_no_draws_witness :
  draws (generateLotteryData strictHost (Some (js "k"))
           (Fulfilled (mkResponse (Some (jsq "{'draws':")) None))) = [].
Proof.
  apply (@error_results_carry_no_draws strictHost (Some (js "k"))
           (Fulfilled (mkResponse (Some (jsq "{'draws':")) None))
           (js "Data stream was interrupted. Try a smaller date range.")).
  vm_compute. reflexivity.
Defined.

(** X10.  Every record the pipeline returns passed the validator: it is an
    object with a truthy [game], a truthy [date] and an array [numbers],
    whatever the key, the outcome of the call and the payload. *)
Theorem returned_draws_are_valid
  (host : HostDate) (apiKey : option jsstring) (upstream : Upstream) :
  Forall (fun d => isValidDraw d = true)
         (draws (generateLotteryData host apiKey upstream)).
Proof.
  unfold generateLotteryData.
  destruct apiKey as [[|k key]|]; try constructor.
  destruct upstream as [message|response]; [constructor|].
  apply parseAndValidate_valid.
Qed.

(** X11.  When the cleaned payload parses to a document with a [draws] array
    and no error is reported, the result holds the valid entries of that
    array, each as often as the array has it: the sort loses and adds
    nothing, whether or not the dates parse. *)
Theorem no_error_keeps_all_valid_entries
  (host : HostDate) (k : codeunit) (key : jsstring) (c : codeunit) (t : jsstring)
  (chunks : option (list Chunk)) (data : JSValue) (items : list JSValue) :
  JSON_parse (cleanJsonString (c :: t)) = Parsed data ->
  getProp data (js "draws") = Normal (Some (JArray items)) ->
  errorDetail (generateLotteryData host (Some (k :: key))
                 (Fulfilled (mkResponse (Some (c :: t)) chunks))) = None ->
  Permutation (validDraws items)
    (draws (generateLotteryData host (Some (k :: key))
              (Fulfilled (mkResponse (Some (c :: t)) chunks)))).
Proof.
  intros Hp Hd. rewrite generate_fulfilled, (parseAndValidate_array _ _ _ Hp Hd).
  destruct (sortDraws host (validDraws items)) as [sorted|] eqn:E.
  - intros _. cbn [draws]. exact (sort_Permutation _ _ E).
  - discriminate.
Qed.

Lemma no_error_keeps_all_valid_entries_witness :
  Permutation (validDraws [record1; record2; record3])
    (draws (generateLotteryData strictHost (Some (js "k"))
              (Fulfilled (mkResponse (Some scenarioText) None)))).
Proof.
  apply (@no_error_keeps_all_valid_entries strictHost 107%N [] 123%N
           (tl scenarioText) None
           (JObject [(js "draws", JArray [record1; record2; record3])])
           [record1; record2; record3]);
    vm_compute; reflexivity.
Defined.

(** X12.  Parse, filter and sort compose: when the cleaned payload parses
    to a document with a [draws] array whose valid entries all have
    parsable dates, the result has no [errorDetail], the sources of the
    response, and as draws the valid entries of the array, each as often as
    the array has it, ordered by date descending; the draws of any one date
    are the valid entries of the array with that date, in the order the
    array has them.  No other list is ordered so, and the payload of the
    example, with two records of one date around a newer one and an entry to
    drop, comes out as the newer record and then the two in their order. *)
Theorem payload_with_parsable_dates_is_sorted
  (host : HostDate) (k : codeunit) (key : jsstring) (c : codeunit) (t : jsstring)
  (chunks : option (list Chunk)) (data : JSValue) (items : list JSValue) :
  JSON_parse (cleanJsonString (c :: t)) = Parsed data ->
  getProp data (js "draws") = Normal (Some (JArray items)) ->
  (forall d, In d items -> isValidDraw d = true -> parsable host d) ->
  (exists out,
     generateLotteryData host (Some (k :: key))
       (Fulfilled (mkResponse (Some (c :: t)) chunks))
     = {| draws := out; sources := sourcesOf chunks; errorDetail := None |}
     /\ Permutation (List.filter isValidDraw items) out
     /\ StronglySorted (newerFirst host) out
     /\ (forall time,
          List.filter (sameTime host time) out
          = List.filter (fun d => isValidDraw d && sameTime host time d) items)
     /\ (forall other,
          StronglySorted (newerFirst host) other ->
          (forall time,
             List.filter (sameTime host time) other
             = List.filter (fun d => isValidDraw d && sameTime host time d) items) ->
          other = out))
  /\ generateLotteryData host (Some (k :: key))
       (Fulfilled (mkResponse (Some orderText) chunks))
     = {| draws := [draw "b" "2026-02-15"; draw "a" "2026-01-20"; draw "c" "2026-01-20"];
          sources := sourcesOf chunks;
          errorDetail := None |}.
Proof.
  intros Hp Hd Hall. split.
  - rewrite generate_fulfilled, (parseAndValidate_array _ _ _ Hp Hd).
    assert (Hv : Forall (parsable host) (validDraws items)).
    { unfold validDraws. rewrite Forall_forall. intros d Hin.
      apply filter_In in Hin. now apply Hall. }
    destruct (sort_parsable Hv) as (out & Hs & Hperm & Hsorted & Hstable).
    assert (Hties : forall time,
               List.filter (sameTime host time) out
               = List.filter (fun d => isValidDraw d && sameTime host time d) items).
    { intros time. rewrite Hstable. unfold validDraws. apply filter_filter_andb. }
    exists out. rewrite Hs. split; [reflexivity|]. split; [exact Hperm|].
    split; [exact Hsorted|]. split; [exact Hties|].
    intros other Hso Hst. apply (stable_sorted_unique Hso Hsorted).
    intros time. now rewrite Hst, Hties.
  - unfold generateLotteryData. cbn [text groundingChunks].
    change (match orderText with | [] => jsq "{'draws': []}" | c0 :: t0 => c0 :: t0 end)
      with orderText.
    replace (parseAndValidate host (cleanJsonString orderText) (sourcesOf chunks))
      with {| draws := [draw "b" "2026-02-15"; draw "a" "2026-01-20"; draw "c" "2026-01-20"];
              sources := sourcesOf chunks;
              errorDetail := None |}; [reflexivity|].
    symmetry. apply orderText_result.
Qed.

Lemma payload_with_parsable_dates_is_sorted_witness :
  (exists out,
     generateLotteryData strictHost (Some (js "k"))
       (Fulfilled (mkResponse (Some orderText) None))
     = {| draws := out; sources := sourcesOf None; errorDetail := None |}
     /\ Permutation (List.filter isValidDraw orderItems) out
     /\ StronglySorted (newerFirst strictHost) out
     /\ (forall time,
          List.filter (sameTime strictHost time) out
          = List.filter (fun d => isValidDraw d && sameTime strictHost time d) orderItems)
     /\ (forall other,
          StronglySorted (newerFirst strictHost) other ->
          (forall time,
             List.filter (sameTime strictHost time) other
             = List.filter (fun d => isValidDraw d && sameTime strictHost time d)
                 orderItems) ->
          other = out))
  /\ generateLotteryData strictHost (Some (js "k"))
       (Fulfilled (mkResponse (Some orderText) None))
     = {| draws := [draw "b" "2026-02-15"; draw "a" "2026-01-20"; draw "c" "2026-01-20"];
          sources := sourcesOf None;
          errorDetail := None |}.
Proof.
  apply (@payload_with_parsable_dates_is_sorted strictHost 107%N [] 123%N
           (tl orderText) None
           (JObject [(js "draws", JArray orderItems)])
           orderItems).
  - vm_compute. reflexivity.
  - vm_compute. reflexivity.
  - intros d Hin _. simpl in Hin.
    destruct Hin as [<-|[<-|[<-|[<-|[]]]]]; eexists; vm_compute; reflexivity.
Defined.

(** X13.  The citations pass through: with a key and a response, the
    sources of the result are those of the chunks that have a [web] member,
    in their order, whether the payload parses or not; without a key, or
    when the call fails, there are none. *)
Theorem sources_pass_through
  (host : HostDate) (k : codeunit) (key : jsstring) (txt : option jsstring)
  (chunks : list Chunk) (upstream : Upstream) (message : option jsstring) :
  sources (generateLotteryData host (Some (k :: key))
             (Fulfilled (mkResponse txt (Some chunks))))
  = flat_map (fun chunk => match web chunk with
                           | Some w => [w]
                           | None => []
                           end) chunks
  /\ sources (generateLotteryData host (Some (k :: key))
                (Fulfilled (mkResponse txt None))) = []
  /\ sources (generateLotteryData host (Some (k :: key)) (Rejected message)) = []
  /\ sources (generateLotteryData host None upstream) = []
  /\ sources (generateLotteryData host (Some []) upstream) = [].
Proof.
  split; [|split; [|repeat split]].
  - unfold generateLotteryData. rewrite parseAndValidate_sources.
    cbn [groundingChunks sourcesOf].
    induction chunks as [|chunk chunks IH]; [reflexivity|].
    cbn [collectSources flat_map]. destruct (web chunk) as [[u ti]|]; cbn [app uri title].
    + now rewrite IH.
    + exact IH.
  - unfold generateLotteryData. now rewrite parseAndValidate_sources.
Qed.

Section PayloadEdges.

Lemma startsWith_app (p b : jsstring) : startsWith p (p ++ b) = true.
Proof. induction p as [|x p IH]; simpl; [reflexivity|]. now rewrite N.eqb_refl. Qed.

(** [s.includes(p)] holds exactly when [p] occurs somewhere in [s]. *)
Lemma includes_occurs (p s : jsstring) :
  includes p s = true <-> exists a b, s = a ++ p ++ b.
Proof.
  induction s as [|c s IH].
  - simpl. rewrite orb_false_r. split.
    + intros H. apply startsWith_split in H. exists [], (skipn (length p) []). exact H.
    + intros (a & b & H). destruct a; [|discriminate H].
      simpl in H. rewrite H. apply startsWith_app.
  - cbn [includes]. rewrite orb_true_iff, IH. split.
    + intros [H | (a & b & ->)].
      * apply startsWith_split in H. exists [], (skipn (length p) (c :: s)). exact H.
      * exists (c :: a), b. reflexivity.
    + intros (a & b & H). destruct a as [|x a].
      * left. simpl in H. rewrite H. apply startsWith_app.
      * right. inversion H; subst. now exists a, b.
Qed.

Lemma clean_whitespace (c : codeunit) (w : jsstring) :
  isWhiteSpace c = true -> forallb isWhiteSpace w = true ->
  cleanJsonString (c :: w) = [].
Proof.
  intros Hc Hw.
  assert (Ht : trim (c :: w) = []).
  { rewrite <- (app_nil_r (c :: w)).
    change ((c :: w) ++ []) with ((c :: w) ++ [] ++ []).
    rewrite trim_padding; [reflexivity| |reflexivity].
    simpl. now rewrite Hc, Hw. }
  unfold cleanJsonString, normalize, stripFences. rewrite Ht. reflexivity.
Qed.

End PayloadEdges.

(** X14.  A payload of whitespace only is a failure, unlike the empty
    payload: it is truthy, so the default document does not replace it; it
    trims to the empty text, which does not parse and which the repair
    leaves empty, and the result carries the [errorDetail] of an
    interrupted stream. *)
Theorem whitespace_payload_is_a_failure
  (host : HostDate) (k : codeunit) (key : jsstring) (c : codeunit) (w : jsstring)
  (chunks : option (list Chunk)) :
  isWhiteSpace c = true -> forallb isWhiteSpace w = true ->
  cleanJsonString (c :: w) = []
  /\ generateLotteryData host (Some (k :: key))
       (Fulfilled (mkResponse (Some (c :: w)) chunks))
     = {| draws := []; sources := sourcesOf chunks;
          errorDetail :=
            Some (js "Data stream was interrupted. Try a smaller date range.") |}.
Proof.
  intros Hc Hw. pose proof (clean_whitespace c w Hc Hw) as H.
  split; [exact H|].
  unfold generateLotteryData, parseAndValidate. cbn [text groundingChunks].
  rewrite H. reflexivity.
Qed.

Lemma whitespace_payload_is_a_failure_witness :
  cleanJsonString (js "  ") = []
  /\ generateLotteryData strictHost (Some (js "k"))
       (Fulfilled (mkResponse (Some (js "  ")) None))
     = {| draws := []; sources := sourcesOf None;
          errorDetail :=
            Some (js "Data stream was interrupted. Try a smaller date range.") |}.
Proof.
  apply (@whitespace_payload_is_a_failure strictHost 107%N [] 32%N [32%N] None);
    reflexivity.
Defined.

Section PromiseFacts.

Variable host : HostDate.

Lemma includes429_array (items : list JSValue) :
  existsb (fun e => match e with
                    | JString s => JsString.eqb s (js "429")
                    | _ => false
                    end) items = true
  <-> In (JString (js "429")) items.
Proof.
  rewrite existsb_exists. split.
  - intros (e & Hin & He). destruct e; try discriminate He.
    apply jsstring_eqb_eq in He. now subst.
  - intros Hin. exists (JString (js "429")). split; [exact Hin|].
    now apply jsstring_eqb_eq.
Qed.

(** On the outcomes of [Upstream] the promise is fulfilled, with the result
    of [generateLotteryData]. *)
Lemma promise_of_upstream (apiKey : option jsstring) (upstream : Upstream) :
  generateLotteryDataPromise host apiKey (outcomeOf upstream)
  = Normal (generateLotteryData host apiKey upstream).
Proof.
  destruct apiKey as [[|k key]|]; try reflexivity.
  destruct upstream as [[m|]|response]; reflexivity.
Qed.


End PromiseFacts.

(** X15.  What the handler of a failed call makes of the value that was
    thrown.  A message that is a string blames the rate limit exactly when
    the three code units 4, 2, 9 occur in it, in a row and anywhere, and a
    message that is an array exactly when the string 429 is one of its
    elements; otherwise, and without a message ([undefined] or [null]), the
    result says that the connection failed.  When [null] or [undefined] was
    thrown, or the message is a number, a boolean or an object without a
    method [includes], the handler itself throws: the promise is rejected
    and there is no result.  An object with a method [includes] of its own
    decides by what the method does.  There is no fourth outcome. *)
Theorem failure_text_of_thrown_value
  (host : HostDate) (k : codeunit) (key : jsstring)
  (m : jsstring) (items : list JSValue) (d : Decimal) (b : bool)
  (props : list (jsstring * JSValue)) (own : Completion bool) (error : Thrown) :
  (generateLotteryDataPromise host (Some (k :: key))
     (Threw (ThrownValue (MessageValue (JString m))))
   = failedWith "Too many requests. Slow down."
   <-> exists a b, m = a ++ js "429" ++ b)
  /\ (generateLotteryDataPromise host (Some (k :: key))
        (Threw (ThrownValue (MessageValue (JString m))))
      = failedWith "Connection failed."
      <-> ~ exists a b, m = a ++ js "429" ++ b)
  /\ (generateLotteryDataPromise host (Some (k :: key))
        (Threw (ThrownValue (MessageValue (JArray items))))
      = failedWith "Too many requests. Slow down."
      <-> In (JString (js "429")) items)
  /\ (generateLotteryDataPromise host (Some (k :: key))
        (Threw (ThrownValue (MessageValue (JArray items))))
      = failedWith "Connection failed."
      <-> ~ In (JString (js "429")) items)
  /\ generateLotteryDataPromise host (Some (k :: key))
       (Threw (ThrownValue MessageAbsent))
     = failedWith "Connection failed."
  /\ generateLotteryDataPromise host (Some (k :: key))
       (Threw (ThrownValue (MessageValue JNull)))
     = failedWith "Connection failed."
  /\ generateLotteryDataPromise host (Some (k :: key)) (Threw ThrownNullish) = Throw
  /\ generateLotteryDataPromise host (Some (k :: key))
       (Threw (ThrownValue (MessageValue (JNumber d)))) = Throw
  /\ generateLotteryDataPromise host (Some (k :: key))
       (Threw (ThrownValue (MessageValue (JBool b)))) = Throw
  /\ generateLotteryDataPromise host (Some (k :: key))
       (Threw (ThrownValue (MessageValue (JObject props)))) = Throw
  /\ generateLotteryDataPromise host (Some (k :: key))
       (Threw (ThrownValue (MessageObject own)))
     = match own with
       | Throw => Throw
       | Normal true => failedWith "Too many requests. Slow down."
       | Normal false => failedWith "Connection failed."
       end
  /\ (generateLotteryDataPromise host (Some (k :: key)) (Threw error) = Throw
      \/ generateLotteryDataPromise host (Some (k :: key)) (Threw error)
         = failedWith "Too many requests. Slow down."
      \/ generateLotteryDataPromise host (Some (k :: key)) (Threw error)
         = failedWith "Connection failed.").
Proof.
  cbn [generateLotteryDataPromise connectionFailure includes429].
  rewrite <- includes_occurs, <- includes429_array.
  split; [|split; [|split; [|split]]].
  - destruct (includes (js "429") m); split; intros H;
      try reflexivity; discriminate H.
  - destruct (includes (js "429") m); split; intros H;
      try reflexivity; try discriminate H;
      try (now contradiction H); intros H'; discriminate H'.
  - destruct (existsb _ items); split; intros H;
      try reflexivity; discriminate H.
  - destruct (existsb _ items); split; intros H;
      try reflexivity; try discriminate H;
      try (now contradiction H); intros H'; discriminate H'.
  - do 6 (split; [reflexivity|]). split.
    + destruct own as [[|]|]; reflexivity.
    + destruct error as [|message]; [now left|].
      cbn [connectionFailure].
      destruct (includes429 message) as [[|]|]; auto.
Qed.

(** ** The page and the table *)

Section PageFacts.

Variable host : HostDate.





End PageFacts.





(** The values that have an [includes] method: strings and arrays. *)
Definition hasIncludes (game : JSValue) : bool :=
  match game with
  | JString _ | JArray _ => true
  | _ => false
  end.

(** X19.  The validator does not give the table all it needs.  A kept record
    has a truthy [game], and the badge of its row calls [game.includes]:
    that throws exactly when the game is neither a string nor an array, as
    for a record whose game is the number 7.  For the seven games of
    [LottoGame] the badge is emerald for the two Daily games, red for the
    two PowerBall games and amber for the three Lotto games. *)
Theorem badge_throws_on_kept_record (d : JSValue) :
  isValidDraw d = true ->
  (exists game,
     field d (js "game") = Some game
     /\ truthy game = true
     /\ (DrawTable.badgeClass d = Throw <-> hasIncludes game = false))
  /\ map (fun g => DrawTable.badgeClass (JObject [(js "game", JString g)])) App.LottoGame
     = map (@Normal jsstring)
         [DrawTable.emerald; DrawTable.emerald; DrawTable.amber; DrawTable.amber;
          DrawTable.amber; DrawTable.red; DrawTable.red].
Proof.
  intros H. split; [|vm_compute; reflexivity].
  apply isValidDraw_fields in H. destruct H as (Hg & _ & _).
  destruct (field d (js "game")) as [game|] eqn:E; [|discriminate Hg].
  exists game. split; [reflexivity|]. split; [exact Hg|].
  unfold DrawTable.badgeClass. rewrite E.
  destruct game as [|b|n|s|items|props]; cbn [DrawTable.includesMethod hasIncludes];
    try (split; [reflexivity|reflexivity]).
  - destruct (includes (js "PowerBall") s); [split; discriminate|].
    destruct (includes (js "Daily") s); split; discriminate.
  - destruct (existsb _ items); [split; discriminate|].
    destruct (existsb _ items); split; discriminate.
Qed.

Lemma badge_throws_on_kept_record_witness :
  (exists game,
     field (JObject [(js "game", num 7); (js "date", JString (js "2026-02-01"));
                     (js "numbers", JArray [])]) (js "game") = Some game
     /\ truthy game = true
     /\ (DrawTable.badgeClass
           (JObject [(js "game", num 7); (js "date", JString (js "2026-02-01"));
                     (js "numbers", JArray [])]) = Throw
         <-> hasIncludes game = false))
  /\ map (fun g => DrawTable.badgeClass (JObject [(js "game", JString g)])) App.LottoGame
     = map (@Normal jsstring)
         [DrawTable.emerald; DrawTable.emerald; DrawTable.amber; DrawTable.amber;
          DrawTable.amber; DrawTable.red; DrawTable.red].
Proof.
  apply (@badge_throws_on_kept_record
           (JObject [(js "game", num 7); (js "date", JString (js "2026-02-01"));
                     (js "numbers", JArray [])])).
  vm_compute. reflexivity.
Defined.

(** The record with the number 7 as its game is kept by the validator and
    its badge throws. *)
Example numeric_game_breaks_the_row :
  isValidDraw (JObject [(js "game", num 7); (js "date", JString (js "2026-02-01"));
                        (js "numbers", JArray [])]) = true
  /\ DrawTable.badgeClass
       (JObject [(js "game", num 7); (js "date", JString (js "2026-02-01"));
                 (js "numbers", JArray [])]) = Throw.
Proof. split; vm_compute; reflexivity. Qed.

(** ** When the sort throws *)

(** [new Date(d.date)] throws. *)
Definition dateThrows (host : HostDate) (d : JSValue) : Prop :=
  dateTime host d = Throw.

Section SortThrows.

Variable host : HostDate.

Local Abbreviation throws := (dateThrows host).
Local Abbreviation compare := (byDateDescending host).

Lemma throws_dec (d : JSValue) : {throws d} + {~ throws d}.
Proof.
  unfold dateThrows. destruct (dateTime host d); [right; discriminate | left; reflexivity].
Qed.

Lemma SortCompare_throws (x y : JSValue) :
  SortCompare compare x y = Throw <-> throws x \/ throws y.
Proof.
  unfold SortCompare, byDateDescending, dateThrows.
  destruct (dateTime host y) as [ty|]; [|split; auto].
  destruct (dateTime host x) as [tx|]; [|split; auto].
  split.
  - destruct ty, tx; discriminate.
  - intros [H|H]; discriminate H.
Qed.

Lemma insertSorted_head_throws (x y : JSValue) (r : list JSValue) :
  throws x \/ throws y -> insertSorted compare x (y :: r) = Throw.
Proof.
  intros H. apply SortCompare_throws in H. cbn [insertSorted]. now rewrite H.
Qed.

Lemma insertSorted_no_throw (x : JSValue) (l : list JSValue) :
  ~ throws x -> Forall (fun d => ~ throws d) l ->
  exists l', insertSorted compare x l = Normal l'.
Proof.
  intros Hx. induction 1 as [|y l Hy Hl (l' & IH)]; cbn [insertSorted].
  - now eexists.
  - destruct (SortCompare compare x y) as [v|] eqn:E.
    + rewrite IH. destruct (v <=? 0)%Z; now eexists.
    + apply SortCompare_throws in E. tauto.
Qed.

Lemma sort_no_throw (l : list JSValue) :
  Forall (fun d => ~ throws d) l -> exists out, sort compare l = Normal out.
Proof.
  induction 1 as [|x l Hx Hl (out & IH)]; cbn [sort]; [now eexists|].
  rewrite IH. apply insertSorted_no_throw; [exact Hx|].
  apply (Permutation_Forall (sort_Permutation _ _ IH) Hl).
Qed.

Lemma sort_throws_iff (l : list JSValue) :
  sortDraws host l = Throw <-> 2 <= length l /\ Exists throws l.
Proof.
  unfold sortDraws. split.
  - intros H. split.
    + destruct l as [|x [|y l]]; try discriminate H. simpl. lia.
    + destruct (Exists_dec throws l throws_dec) as [He|He]; [exact He|].
      apply Forall_Exists_neg in He.
      destruct (sort_no_throw He) as [out Ho]. rewrite Ho in H. discriminate H.
  - intros [Hlen Hex]. induction l as [|x rest IH]; [simpl in Hlen; lia|].
    cbn [sort]. destruct (sort compare rest) as [s|] eqn:Es; [|reflexivity].
    destruct rest as [|z rest']; [simpl in Hlen; lia|].
    destruct rest' as [|z' rest''].
    + cbn [sort insertSorted] in Es. inversion Es; subst s.
      apply insertSorted_head_throws.
      inversion Hex as [? ? Hx|? ? Hr]; subst; [now left|].
      inversion Hr as [? ? Hz|? ? Hn]; subst; [now right|inversion Hn].
    + inversion Hex as [? ? Hx|? ? Hr]; subst.
      * pose proof (Permutation_length (sort_Permutation _ _ Es)) as Hl.
        destruct s as [|y r]; [discriminate Hl|].
        apply insertSorted_head_throws. now left.
      * assert (Ht : Normal s = Throw) by (apply IH; [simpl; lia|exact Hr]).
        discriminate Ht.
Qed.

End SortThrows.

(** X20.  The sort can only fail on a date that cannot be turned into a
    time value at all (an object with a [toString] of its own, say), and
    only when there is something to compare: it throws exactly when two or
    more records are kept and [new Date] throws on the date of one of them.
    A single kept record is returned whatever its date. *)
Theorem sort_throws_only_on_unconvertible_dates
  (host : HostDate) (ds : list JSValue) (d : JSValue) :
  (sortDraws host ds = Throw
   <-> 2 <= length ds /\ Exists (dateThrows host) ds)
  /\ sortDraws host [d] = Normal [d]
  /\ sortDraws host [] = Normal [].
Proof. split; [apply sort_throws_iff|split; reflexivity]. Qed.
